(** * finder.py: scanning and fixing CSS files

    A shallow embedding of [src/finder.py].  The script walks a directory
    tree, reads every [*.css] file outside [node_modules], applies three
    regular-expression substitutions and, in fix mode, writes the result
    back.

    Definitions:
    - [Re]: the part of Python's [re] engine that the three patterns use
      (a backtracking matcher over a compiled program, and [sub]);
    - [Rules]: the table [fix_patterns] and the inner loop that applies it;
    - [Finder]: the traversal, the per-file body with its [try]/[except],
      and the summary, over an explicit disk, console and I/O trace;
    - [Example]: a small tree and disk for concrete runs;
    - [Shape]: functional descriptions of what each pattern matches.

    Proofs: [ReFacts] (the engine), [RuleB], [RuleC], [RuleA] (one module
    per rule), [FinderFacts] (the traversal), then the properties of the
    specification, C1 to C10. *)

From Stdlib Require Import String Ascii List NArith Bool Arith Lia.
Import ListNotations.

Set Implicit Arguments.

(** ** Text

    A Python [str] is a sequence of Unicode code points. *)

Abbreviation char := N (only parsing).
Abbreviation text := (list N) (only parsing).

Definition ch (a : ascii) : char := N_of_ascii a.

(** [cp s] is the text of an ASCII literal. *)
Definition cp (s : string) : text := map ch (list_ascii_of_string s).

Definition NL : char := 10%N.
Definition DQ : char := 34%N.

(** ** The regular-expression engine *)

Module Re.

(** [\s] on a [str] pattern: the code points for which
    [Py_UNICODE_ISSPACE] holds. *)
Definition is_space (c : char) : bool :=
  ((9 <=? c) && (c <=? 13) || (28 <=? c) && (c <=? 32)
   || (c =? 133) || (c =? 160) || (c =? 5760)
   || (8192 <=? c) && (c <=? 8202)
   || (c =? 8232) || (c =? 8233) || (c =? 8239) || (c =? 8287)
   || (c =? 12288))%N.

(** A set of characters that matches one character:
    a literal, [.] (anything but a newline; no DOTALL flag) or [\s]. *)
Inductive cset :=
| CLit (c : char)
| CAny
| CSpace.

Definition cset_in (k : cset) (c : char) : bool :=
  match k with
  | CLit d => (c =? d)%N
  | CAny => negb (c =? NL)%N
  | CSpace => is_space c
  end.

(** The compiled program of a pattern, a sequence of operations as
    [sre_compile] emits them: one character, a greedy or a lazy repetition
    of one character ([REPEAT_ONE], [MIN_REPEAT_ONE]), a group mark
    (group [g] is delimited by marks [2g-2] and [2g-1]) and [$]. *)
Inductive op :=
| OChar (k : cset)
| OStar (k : cset)
| OLazy (k : cset)
| OMark (i : nat)
| OEnd.

Definition program := list op.

(** A position in the subject is the suffix that starts there. *)
Definition marks := list (nat * text).

Fixpoint mark_at (i : nat) (mk : marks) : option text :=
  match mk with
  | [] => None
  | (j, s) :: mk' => if Nat.eqb i j then Some s else mark_at i mk'
  end.

Definition group_text (g : nat) (mk : marks) : option text :=
  match mark_at (2 * g - 2) mk, mark_at (2 * g - 1) mk with
  | Some a, Some b => Some (firstn (length a - length b) a)
  | _, _ => None
  end.

(** [$] without the MULTILINE flag: the end of the subject, or just before
    a newline that is its last character. *)
Definition at_end (s : text) : bool :=
  match s with
  | [] => true
  | [c] => (c =? NL)%N
  | _ => false
  end.

Section Repeat.
Variable R : Type.
Variable k : cset.
Variable cont : text -> option R.

(** Greedy: take as many as possible, give back one at a time. *)
Fixpoint star (s : text) : option R :=
  match s with
  | c :: t =>
      if cset_in k c then
        match star t with
        | Some r => Some r
        | None => cont s
        end
      else cont s
  | [] => cont s
  end.

(** Lazy: take as few as possible, one more at a time. *)
Fixpoint lazy (s : text) : option R :=
  match cont s with
  | Some r => Some r
  | None =>
      match s with
      | c :: t => if cset_in k c then lazy t else None
      | [] => None
      end
  end.
End Repeat.

(** [run ops accept s mk]: match the program at the start of [s].  The
    result is the marks and the suffix after the match.  [accept] is the
    test made at SUCCESS (see [match_here]); rejecting there backtracks. *)
Fixpoint run (ops : program) (accept : text -> bool) (s : text) (mk : marks)
  {struct ops} : option (marks * text) :=
  match ops with
  | [] => if accept s then Some (mk, s) else None
  | OChar k :: ops' =>
      match s with
      | c :: t => if cset_in k c then run ops' accept t mk else None
      | [] => None
      end
  | OStar k :: ops' => star k (fun s' => run ops' accept s' mk) s
  | OLazy k :: ops' => lazy k (fun s' => run ops' accept s' mk) s
  | OMark i :: ops' => run ops' accept s ((i, s) :: mk)
  | OEnd :: ops' => if at_end s then run ops' accept s mk else None
  end.

(** One match attempt at the start of [s].  With [must_advance] an empty
    match is refused (the search restarts where an empty match ended). *)
Definition match_here (ops : program) (s : text) (must_advance : bool)
  : option (marks * text) :=
  run ops (fun s' => negb must_advance || (length s' <? length s)) s [].

(** A replacement template: literal characters and group references. *)
Inductive titem :=
| TLit (c : char)
| TGroup (g : nat).

Definition template := list titem.

Definition expand (tpl : template) (mk : marks) : text :=
  flat_map (fun it =>
              match it with
              | TLit c => [c]
              | TGroup g => match group_text g mk with
                            | Some x => x
                            | None => []
                            end
              end) tpl.

(** [pattern.sub(repl, string)]: every leftmost non-overlapping match is
    replaced, the text between matches is copied.  [skip] counts the
    characters of the current match still to pass over.  After an empty
    match the next attempt at the same position must advance. *)
Fixpoint sub_from (ops : program) (tpl : template) (s : text) (skip : nat)
  {struct s} : text :=
  match s with
  | [] =>
      match skip with
      | S _ => []
      | O => match match_here ops [] false with
             | Some (mk, _) => expand tpl mk
             | None => []
             end
      end
  | c :: t =>
      match skip with
      | S n => sub_from ops tpl t n
      | O =>
          match match_here ops s false with
          | Some (mk, rest) =>
              expand tpl mk ++
              match length s - length rest with
              | S n => sub_from ops tpl t n
              | O =>
                  match match_here ops s true with
                  | Some (mk', rest') =>
                      expand tpl mk' ++
                      sub_from ops tpl t (length s - length rest' - 1)
                  | None => c :: sub_from ops tpl t 0
                  end
              end
          | None => c :: sub_from ops tpl t 0
          end
      end
  end.

Definition sub (ops : program) (tpl : template) (s : text) : text :=
  sub_from ops tpl s 0.

(** The first match at or after the start of [s], if any
    ([pattern.search]): the marks and the suffix after the match. *)
Fixpoint search (ops : program) (s : text) : option (marks * text) :=
  match match_here ops s false with
  | Some r => Some r
  | None => match s with
            | [] => None
            | _ :: t => search ops t
            end
  end.

(** *** Reading a pattern

    The fragment of the pattern syntax that the three patterns use:
    literals, escaped punctuation, [\s], [.], a postfix [*] or [*?] on
    one character, groups and [$].  Anything else is refused. *)

Definition is_special (c : ascii) : bool :=
  existsb (Ascii.eqb c)
          (list_ascii_of_string "*+?{}[]|^").

Definition escape (c : ascii) : option cset :=
  if Ascii.eqb c "s" then Some CSpace
  else if existsb (Ascii.eqb c) (list_ascii_of_string "*+?{}[]|^$.()/\")
       then Some (CLit (ch c))
       else None.

Definition cons_op (o : op) (r : option program) : option program :=
  match r with Some p => Some (o :: p) | None => None end.

Fixpoint parse (s : list ascii) (next : nat) (opened : list nat)
  : option program :=
  let atom (k : option cset) (t : list ascii) : option program :=
    match k with
    | None => None
    | Some k =>
        match t with
        | q :: t' =>
            if Ascii.eqb q "*" then
              match t' with
              | l :: t'' =>
                  if Ascii.eqb l "?" then cons_op (OLazy k) (parse t'' next opened)
                  else cons_op (OStar k) (parse t' next opened)
              | [] => cons_op (OStar k) (parse t' next opened)
              end
            else if is_special q then None
            else cons_op (OChar k) (parse t next opened)
        | [] => cons_op (OChar k) (parse t next opened)
        end
    end in
  match s with
  | [] => match opened with [] => Some [] | _ => None end
  | c :: t =>
      if Ascii.eqb c "(" then
        cons_op (OMark (2 * next - 2)) (parse t (S next) (next :: opened))
      else if Ascii.eqb c ")" then
        match opened with
        | g :: opened' => cons_op (OMark (2 * g - 1)) (parse t next opened')
        | [] => None
        end
      else if Ascii.eqb c "$" then cons_op OEnd (parse t next opened)
      else if Ascii.eqb c "." then atom (Some CAny) t
      else if Ascii.eqb c "\" then
        match t with
        | e :: t' => atom (escape e) t'
        | [] => None
        end
      else if is_special c then None
      else atom (Some (CLit (ch c))) t
  end.

(** [re.compile(src)] *)
Definition compile (src : string) : option program :=
  parse (list_ascii_of_string src) 1 [].

(** A replacement string: a backslash and a digit refer to a group. *)
Fixpoint parse_template (s : list ascii) : template :=
  match s with
  | [] => []
  | c :: t =>
      if Ascii.eqb c "\" then
        match t with
        | d :: t' =>
            if (48 <=? nat_of_ascii d) && (nat_of_ascii d <=? 57)
               then TGroup (nat_of_ascii d - 48) :: parse_template t'
               else TLit (ch c) :: parse_template t
        | [] => [TLit (ch c)]
        end
      else TLit (ch c) :: parse_template t
  end.

End Re.

(** ** The rule table *)

Module Rules.
Import Re.

(** The three entries of [fix_patterns], pattern and replacement, as the
    source writes them (raw strings). *)
Definition ruleA_source : string * string := ("(@import .*?;)\s*\*/$"%string, "\1"%string).
Definition ruleB_source : string * string := ("http:/\*"%string, "http://"%string).
Definition ruleC_source : string * string := ("(\*/\s*)\*/"%string, "\1"%string).

Definition lits (s : string) : program := map (fun c => OChar (CLit c)) (cp s).

(** Their compiled programs ([compiled_rules] checks them against the
    sources). *)
Definition ruleA_pattern : program :=
  [OMark 0] ++ lits "@import " ++
  [OLazy CAny; OChar (CLit (ch ";")); OMark 1;
   OStar CSpace; OChar (CLit (ch "*")); OChar (CLit (ch "/")); OEnd].
Definition ruleA_repl : template := [TGroup 1].

Definition ruleB_pattern : program := lits "http:/*".
Definition ruleB_repl : template := map TLit (cp "http://").

Definition ruleC_pattern : program :=
  [OMark 0; OChar (CLit (ch "*")); OChar (CLit (ch "/")); OStar CSpace;
   OMark 1; OChar (CLit (ch "*")); OChar (CLit (ch "/"))].
Definition ruleC_repl : template := [TGroup 1].

(** The dict [fix_patterns], in insertion order. *)
Definition fix_patterns : list (program * template) :=
  [ (ruleA_pattern, ruleA_repl);
    (ruleB_pattern, ruleB_repl);
    (ruleC_pattern, ruleC_repl) ].

Definition ruleA (t : text) : text := sub ruleA_pattern ruleA_repl t.
Definition ruleB (t : text) : text := sub ruleB_pattern ruleB_repl t.
Definition ruleC (t : text) : text := sub ruleC_pattern ruleC_repl t.

(** The inner loop: each pattern in turn is substituted in the current
    [modified_content]. *)
Definition apply_fixes (content : text) : text :=
  fold_left (fun modified_content pr => sub (fst pr) (snd pr) modified_content)
            fix_patterns content.

(** A text matches a pattern when [search] finds a match somewhere. *)
Definition matches (ops : program) (t : text) : bool :=
  match search ops t with Some _ => true | None => false end.

End Rules.

(** ** The traversal and the per-file body *)

Module Finder.
Import Rules.

(** A path is the list of its components; [os.path.join(root, file)] adds
    one component. *)
Definition path := list string.

Definition join (root : path) (name : string) : path := root ++ [name].

Definition path_eqb (p q : path) : bool :=
  if list_eq_dec string_dec p q then true else false.

(** [file.endswith(suffix)] *)
Definition endswith (s suffix : string) : bool :=
  let n := String.length s in
  let m := String.length suffix in
  (m <=? n) && String.eqb (substring (n - m) m s) suffix.

(** [modified_content != original_content] is [negb (text_eqb ...)]. *)
Fixpoint text_eqb (a b : text) : bool :=
  match a, b with
  | [], [] => true
  | x :: a', y :: b' => (x =? y)%N && text_eqb a' b'
  | _, _ => false
  end.

(** The directory tree below the start directory as [os.walk] lists it:
    for each directory the sub-directories and the other entries. *)
Unset Elimination Schemes.
Inductive tree :=
| Dir (dirs : list (string * tree)) (files : list string).
Set Elimination Schemes.

(** Exceptions of class [Exception] that file I/O raises. *)
Inductive exn :=
| OSError (errno : nat) (msg : string).

Inductive result (A : Type) :=
| Ok (a : A)
| Raise (e : exn).
Arguments Ok {A} a.
Arguments Raise {A} e.

(** A file on disk: its bytes, and how opening it fails, if it does.  A
    failed rewrite leaves [snd] of the fault on disk (the old bytes when
    [open] fails, fewer when the write is cut short). *)
Record file := mkFile {
  f_bytes : list Byte.byte;
  f_read_fault : option exn;
  f_write_fault : option (exn * list Byte.byte)
}.

Definition disk := path -> file.

Definition disk_set (d : disk) (p : path) (f : file) : disk :=
  fun q => if path_eqb q p then f else d q.

(** What the script prints. *)
Inductive line :=
| Fixed (file_path : path)
| Found (file_path : path)
| CouldNotRead (file_path : path) (e : exn)
| SummaryFixed (errors_found : nat)
| SummaryFound (errors_found : nat)
| SummaryHint
| SummaryClean.

(** File accesses, as they are attempted. *)
Inductive event :=
| EvRead (p : path)
| EvWrite (p : path).

Definition event_path (ev : event) : path :=
  match ev with EvRead p => p | EvWrite p => p end.

Definition is_write (ev : event) : bool :=
  match ev with EvRead _ => false | EvWrite _ => true end.

(** The world (disk, console, accesses) and the two local counters. *)
Record state := mkState {
  st_disk : disk;
  console : list line;
  trace : list event;
  files_processed : nat;
  errors_found : nat
}.

(** The value a call returns. *)
Inductive pyval :=
| PyNone
| PyInt (n : nat)
| PyPair (a b : pyval).

(** Statements run in a state and end normally or by raising. *)
Definition M (A : Type) := state -> state * result A.

Definition ret {A} (a : A) : M A := fun st => (st, Ok a).

Definition bind {A B} (m : M A) (f : A -> M B) : M B :=
  fun st => match m st with
            | (st', Ok a) => f a st'
            | (st', Raise e) => (st', Raise e)
            end.

Notation "x <- m ;; k" := (bind m (fun x => k))
  (at level 61, m at next level, right associativity).
Notation "m ;;; k" := (bind m (fun _ => k))
  (at level 61, right associativity).

(** [try: body except Exception as e: handler] *)
Definition try_except (body : M unit) (handler : exn -> M unit) : M unit :=
  fun st => match body st with
            | (st', Ok a) => (st', Ok a)
            | (st', Raise e) => handler e st'
            end.

Definition print (l : line) : M unit :=
  fun st => (mkState (st_disk st) (console st ++ [l]) (trace st)
                     (files_processed st) (errors_found st), Ok tt).

Definition log_event (ev : event) (st : state) : state :=
  mkState (st_disk st) (console st) (trace st ++ [ev])
          (files_processed st) (errors_found st).

Definition set_disk (d : disk) (st : state) : state :=
  mkState d (console st) (trace st) (files_processed st) (errors_found st).

Definition incr_errors_found : M unit :=
  fun st => (mkState (st_disk st) (console st) (trace st)
                     (files_processed st) (errors_found st + 1), Ok tt).

Definition incr_files_processed : M unit :=
  fun st => (mkState (st_disk st) (console st) (trace st)
                     (files_processed st + 1) (errors_found st), Ok tt).

Definition reset_counters : M unit :=
  fun st => (mkState (st_disk st) (console st) (trace st) 0 0, Ok tt).

Definition get_errors_found : M nat := fun st => (st, Ok (errors_found st)).

Definition nm : string := "node_modules".

(** A loop over the entries of [dirs] that passes over the first one named
    [node_modules]; [removed] tells that it has been passed. *)
Fixpoint for_dirs_pruned (body : string -> tree -> M unit)
         (dirs : list (string * tree)) (removed : bool) : M unit :=
  match dirs with
  | [] => ret tt
  | (name, sub) :: dirs' =>
      if negb removed && String.eqb name nm
      then for_dirs_pruned body dirs' true
      else body name sub ;;; for_dirs_pruned body dirs' removed
  end.

Section Codec.
(** Text-mode I/O with [encoding='utf-8']: reading decodes (skipping
    what does not decode, [errors='ignore']), writing encodes. *)
Variable decode : list Byte.byte -> text.
Variable encode : text -> list Byte.byte.

(** [with open(file_path, 'r', ...) as f: content = f.read()] *)
Definition read_text (file_path : path) : M text :=
  fun st =>
    let st' := log_event (EvRead file_path) st in
    match f_read_fault (st_disk st file_path) with
    | Some e => (st', Raise e)
    | None => (st', Ok (decode (f_bytes (st_disk st file_path))))
    end.

(** [with open(file_path, 'w', ...) as f: f.write(modified_content)] *)
Definition write_text (file_path : path) (content : text) : M unit :=
  fun st =>
    let st' := log_event (EvWrite file_path) st in
    let f := st_disk st file_path in
    match f_write_fault f with
    | Some (e, partial) =>
        (set_disk (disk_set (st_disk st) file_path
                            (mkFile partial (f_read_fault f) (f_write_fault f)))
                  st', Raise e)
    | None =>
        (set_disk (disk_set (st_disk st) file_path
                            (mkFile (encode content) (f_read_fault f)
                                    (f_write_fault f)))
                  st', Ok tt)
    end.

Variable fix_mode : bool.

(** The body of the [try] for one file. *)
Definition file_body (file_path : path) : M unit :=
  content <- read_text file_path ;;
  let original_content := content in
  let modified_content := apply_fixes content in
  (if negb (text_eqb modified_content original_content) then
     incr_errors_found ;;;
     if fix_mode then
       print (Fixed file_path) ;;;
       write_text file_path modified_content
     else
       print (Found file_path)
   else ret tt) ;;;
  incr_files_processed.

Definition process_file (file_path : path) : M unit :=
  try_except (file_body file_path)
             (fun e => print (CouldNotRead file_path e)).

(** [for file in files: if file.endswith('.css'): ...] *)
Fixpoint for_files (root : path) (files : list string) : M unit :=
  match files with
  | [] => ret tt
  | file :: files' =>
      (if endswith file ".css" then process_file (join root file)
       else ret tt) ;;;
      for_files root files'
  end.

(** [for root, dirs, files in os.walk(path)]: the body runs on a
    directory, then the walk descends into the entries left in [dirs].
    [dirs.remove('node_modules')] takes the first entry of that name
    out of the list ([walk_unfold] states the loop over
    [list_remove nm dirs]). *)
Fixpoint walk (root : path) (t : tree) {struct t} : M unit :=
  match t with
  | Dir dirs files =>
      for_files root files ;;;
      for_dirs_pruned (fun name sub => walk (join root name) sub) dirs false
  end.

(** The three summary messages. *)
Definition print_summary (n : nat) : M unit :=
  if fix_mode then print (SummaryFixed n)
  else if 0 <? n then print (SummaryFound n) ;;; print SummaryHint
  else print SummaryClean.

(** [process_css_files(path, fix_mode)]; [t] is the tree at [path].
    There is no [return]: the call yields [None]. *)
Definition process_css_files (path : path) (t : tree) : M pyval :=
  reset_counters ;;;
  walk path t ;;;
  n <- get_errors_found ;;
  print_summary n ;;;
  ret PyNone.

(** The per-file step over a list of paths. *)
Fixpoint for_paths (ps : list path) : M unit :=
  match ps with
  | [] => ret tt
  | p :: ps' => process_file p ;;; for_paths ps'
  end.

End Codec.

(** The state when the walk starts: both counters are zero. *)
Definition start (st : state) : state :=
  mkState (st_disk st) (console st) (trace st) 0 0.

(** [dirs.remove(x)]: the first entry named [x] is taken out. *)
Fixpoint list_remove (x : string) (dirs : list (string * tree))
  : list (string * tree) :=
  match dirs with
  | [] => []
  | (name, sub) :: dirs' =>
      if String.eqb name x then dirs' else (name, sub) :: list_remove x dirs'
  end.

(** A loop over directory entries. *)
Fixpoint for_dirs (body : string -> tree -> M unit)
         (dirs : list (string * tree)) : M unit :=
  match dirs with
  | [] => ret tt
  | (name, sub) :: dirs' => body name sub ;;; for_dirs body dirs'
  end.

(** The lists that [body] gives for the entries of [dirs], the first
    entry named [node_modules] left out. *)
Fixpoint flat_dirs_pruned (body : string -> tree -> list path)
         (dirs : list (string * tree)) (removed : bool) : list path :=
  match dirs with
  | [] => []
  | (name, sub) :: dirs' =>
      if negb removed && String.eqb name nm
      then flat_dirs_pruned body dirs' true
      else body name sub ++ flat_dirs_pruned body dirs' removed
  end.

(** The files the run opens, in order: the [.css] entries of every
    directory reached ([walk_targets]). *)
Fixpoint targets (root : path) (t : tree) {struct t} : list path :=
  match t with
  | Dir dirs files =>
      map (join root) (filter (fun file => endswith file ".css") files) ++
      flat_dirs_pruned (fun name sub => targets (join root name) sub) dirs false
  end.

(** [P] holds of every entry of a listing. *)
Fixpoint all_dirs (P : tree -> Prop) (dirs : list (string * tree)) : Prop :=
  match dirs with
  | [] => True
  | (_, sub) :: dirs' => P sub /\ all_dirs P dirs'
  end.


(** The state when the walk is over, before the summary. *)
Definition walked decode encode fix_mode (root : path) (t : tree) (st : state)
  : state :=
  fst (for_paths decode encode fix_mode (targets root t) (start st)).

(** What a run adds to the trace and to the console. *)
Definition new_events (st st' : state) : list event :=
  skipn (length (trace st)) (trace st').

Definition new_lines (st st' : state) : list line :=
  skipn (length (console st)) (console st').

Definition summary_lines (fix_mode : bool) (n : nat) : list line :=
  if fix_mode then [SummaryFixed n]
  else if 0 <? n then [SummaryFound n; SummaryHint]
  else [SummaryClean].

End Finder.

(** ** A small tree and disk for concrete runs *)

Module Example.
Import Rules Finder.

(** A codec for ASCII data (the code points below 128 are their own
    UTF-8 encoding). *)
Definition ascii_decode (bs : list Byte.byte) : text := map Byte.to_N bs.

Definition ascii_encode (t : text) : list Byte.byte :=
  map (fun c => match Byte.of_N c with
                | Some b => b
                | None => Byte.x3f
                end) t.

Definition plain (s : string) : file :=
  mkFile (list_byte_of_string s) None None.

(** [a.css] has a stray closer after an import, [b.css] is clean,
    [c/node_modules/d.css] has a broken protocol prefix; [locked.css]
    cannot be opened, [readonly.css] cannot be rewritten. *)
Definition demo_tree : tree :=
  Dir [("c"%string, Dir [(nm, Dir [] ["d.css"%string])] [])]
      ["a.css"%string; "b.css"%string; "notes.txt"%string].

Definition demo_disk : disk :=
  fun p =>
    if path_eqb p ["a.css"%string] then plain "@import x;  */"
    else if path_eqb p ["b.css"%string] then plain "body { color: red; }"
    else if path_eqb p ["c"%string; nm; "d.css"%string] then plain "http:/*"
    else if path_eqb p ["locked.css"%string] then
      mkFile (list_byte_of_string "*/ */")
             (Some (OSError 13 "Permission denied")) None
    else if path_eqb p ["readonly.css"%string] then
      mkFile (list_byte_of_string "*/ */") None
             (Some (OSError 13 "Permission denied",
                    list_byte_of_string "*/ */"))
    else plain "".


Definition demo_state : state := mkState demo_disk [] [] 0 0.

End Example.

(** ** Functional descriptions used by the proofs *)

Module Shape.
Import Re Rules.

(** [strip_prefix p s]: what follows [p] at the start of [s]. *)
Fixpoint strip_prefix (p s : text) : option text :=
  match p with
  | [] => Some s
  | a :: p' =>
      match s with
      | c :: t => if (c =? a)%N then strip_prefix p' t else None
      | [] => None
      end
  end.

Fixpoint drop_while (f : char -> bool) (s : text) : text :=
  match s with
  | c :: t => if f c then drop_while f t else s
  | [] => []
  end.

Definition suffix_of (r s : text) : Prop := exists pre, s = pre ++ r.

(** The literals of the three patterns. *)
Definition import_kw : text := cp "@import ".
Definition occ : text := cp "http:/*".
Definition fixedB : text := cp "http://".
Definition closer : text := cp "*/".

(** The end of Rule A's pattern, after the group. *)
Definition ruleA_tail : program :=
  [OStar CSpace; OChar (CLit (ch "*")); OChar (CLit (ch "/")); OEnd].

(** Rule A at the start of [s].  [a_tail] is the end of the pattern: white
    space, a closer, the end of the text; its result is what is left (empty
    or one newline).  [a_scan] looks along the line for a [;] that
    [a_tail] follows; its result is the position after that [;] and what
    is left. *)
Definition a_tail (t : text) : option text :=
  match drop_while is_space t with
  | d0 :: d1 :: e =>
      if ((d0 =? 42) && (d1 =? 47))%N && at_end e then Some e else None
  | _ => None
  end.

Fixpoint a_scan (r : text) : option (text * text) :=
  match r with
  | [] => None
  | c :: t =>
      match (if (c =? 59)%N then a_tail t else None) with
      | Some e => Some (t, e)
      | None => if (c =? NL)%N then None else a_scan t
      end
  end.

Definition a_here (s : text) : option (text * text) :=
  match strip_prefix (cp "@import ") s with
  | Some r => a_scan r
  | None => None
  end.

(** Rule C at the start of [s]: a closer, white space, a closer.  The
    result is the position of the second closer and what follows it. *)
Definition c_here (s : text) : option (text * text) :=
  match s with
  | c0 :: c1 :: t =>
      if ((c0 =? 42) && (c1 =? 47))%N then
        match drop_while is_space t with
        | d0 :: d1 :: rest =>
            if ((d0 =? 42) && (d1 =? 47))%N
            then Some (drop_while is_space t, rest)
            else None
        | _ => None
        end
      else None
  | _ => None
  end.

(** How Rule B changes a text, position by position: a character stays,
    or a [*] that follows a [/] becomes a [/].  The first argument is the
    character before the position (in the output). *)
Inductive slashed : char -> text -> text -> Prop :=
| slashed_nil p : slashed p [] []
| slashed_same p c t r : slashed c t r -> slashed p (c :: t) (c :: r)
| slashed_star t r :
    slashed 47%N t r -> slashed 47%N (42%N :: t) (47%N :: r).

Ltac inv_slashed :=
  match goal with
  | H : slashed _ _ (_ :: _) |- _ => inversion H; subst; clear H
  end.

(** The line of the spec's example, with its quotes, and what Rule A
    makes of it. *)
Definition import_line : text :=
  cp "@import " ++ [DQ] ++ cp "x.css" ++ [DQ] ++ cp ";   */".

Definition import_fixed : text :=
  cp "@import " ++ [DQ] ++ cp "x.css" ++ [DQ] ++ cp ";".

End Shape.

(** ** The script's entry block *)

Module Script.
Import Rules Finder.



End Script.

(** ** What a run reports, as functions of the disk *)

Module Report.
Import Rules Finder Shape.

Definition readable (d : disk) (p : path) : bool :=
  match f_read_fault (d p) with
  | None => true
  | Some _ => false
  end.

(** The file can be read and the rule table changes its text. *)
Definition needs_fix (decode : list Byte.byte -> text) (d : disk) (p : path)
  : bool :=
  readable d p &&
  negb (text_eqb (apply_fixes (decode (f_bytes (d p)))) (decode (f_bytes (d p)))).

(** The lines a scan prints for one file. *)
Definition scan_report decode (d : disk) (p : path) : list line :=
  match f_read_fault (d p) with
  | Some e => [CouldNotRead p e]
  | None => if needs_fix decode d p then [Found p] else []
  end.

(** The lines a fix run prints for one file. *)
Definition fix_report decode (d : disk) (p : path) : list line :=
  match f_read_fault (d p) with
  | Some e => [CouldNotRead p e]
  | None =>
      if needs_fix decode d p then
        match f_write_fault (d p) with
        | Some (e, _) => [Fixed p; CouldNotRead p e]
        | None => [Fixed p]
        end
      else []
  end.

(** The accesses of a fix run to one file. *)
Definition fix_events decode (d : disk) (p : path) : list event :=
  if needs_fix decode d p then [EvRead p; EvWrite p] else [EvRead p].

(** The bytes a fix run leaves in one file. *)
Definition fixed_bytes decode encode (d : disk) (p : path) : list Byte.byte :=
  if needs_fix decode d p then
    match f_write_fault (d p) with
    | Some (_, partial) => partial
    | None => encode (apply_fixes (decode (f_bytes (d p))))
    end
  else f_bytes (d p).

(** A fix run counts a file as processed unless a read or a write fails. *)
Definition fix_counted decode (d : disk) (p : path) : bool :=
  readable d p &&
  negb (needs_fix decode d p &&
        match f_write_fault (d p) with Some _ => true | None => false end).

Definition count {A} (f : A -> bool) (l : list A) : nat := length (filter f l).


Definition is_notice (l : line) : bool :=
  match l with Fixed _ | Found _ => true | _ => false end.


(** No listing holds the same directory name or the same file name
    twice. *)
Fixpoint wf_names (t : tree) : Prop :=
  match t with
  | Dir dirs files =>
      NoDup (map fst dirs) /\ NoDup files /\ all_dirs wf_names dirs
  end.

(** [n] closers in a row. *)
Fixpoint closers (n : nat) : text :=
  match n with
  | O => []
  | S n' => closer ++ closers n'
  end.

(** Rule B position by position: a character stays, or a [*] becomes a
    [/]. *)
Definition star_or_same (a b : char) : Prop :=
  b = a \/ (a = 42%N /\ b = 47%N).

(** The text of a file after [n] fix runs in a row (each run decodes,
    applies the table once and writes the result back). *)
Fixpoint fix_runs (n : nat) (t : text) : text :=
  match n with
  | O => t
  | S n' => fix_runs n' (apply_fixes t)
  end.

End Report.

(** * Properties of the engine *)

Module ReFacts.
Import Re Rules Shape.

Lemma strip_prefix_app p s r :
  strip_prefix p s = Some r <-> s = p ++ r.
Proof.
  revert s; induction p as [|a p IH]; intros s; simpl.
  - split; intros H; [now inversion H | now subst].
  - destruct s as [|c t].
    + split; intros H; discriminate.
    + destruct (N.eqb_spec c a) as [->|Hne].
      * rewrite IH. split; intros H; [now subst | now inversion H].
      * split; intros H; [discriminate | inversion H; contradiction].
Qed.

Lemma strip_prefix_self p r : strip_prefix p (p ++ r) = Some r.
Proof. now apply strip_prefix_app. Qed.

(** A run of literal characters consumes exactly that prefix. *)
Lemma run_lits p ops acc s mk :
  run (map (fun c => OChar (CLit c)) p ++ ops) acc s mk =
  match strip_prefix p s with
  | Some r => run ops acc r mk
  | None => None
  end.
Proof.
  revert s; induction p as [|a p IH]; intros s; simpl; [reflexivity|].
  destruct s as [|c t]; [reflexivity|].
  destruct (c =? a)%N; [apply IH | reflexivity].
Qed.

(** One step of [run]. *)
Lemma run_char k ops acc c t mk :
  run (OChar k :: ops) acc (c :: t) mk =
  if cset_in k c then run ops acc t mk else None.
Proof. reflexivity. Qed.

Lemma run_mark i ops acc s mk :
  run (OMark i :: ops) acc s mk = run ops acc s ((i, s) :: mk).
Proof. reflexivity. Qed.

Lemma run_star k ops acc s mk :
  run (OStar k :: ops) acc s mk = star k (fun s' => run ops acc s' mk) s.
Proof. reflexivity. Qed.

Lemma run_lazy k ops acc s mk :
  run (OLazy k :: ops) acc s mk = lazy k (fun s' => run ops acc s' mk) s.
Proof. reflexivity. Qed.

Lemma run_end ops acc s mk :
  run (OEnd :: ops) acc s mk = if at_end s then run ops acc s mk else None.
Proof. reflexivity. Qed.

Lemma lazy_ext (R : Type) k (f g : text -> option R) s :
  (forall u, f u = g u) -> lazy k f s = lazy k g s.
Proof.
  intros H. induction s as [|c t IH]; simpl; rewrite H; [reflexivity|].
  now rewrite IH.
Qed.

(** When what follows cannot start with a character of the set, a greedy
    repetition never gives anything back. *)
Lemma star_drop (R : Type) k (cont : text -> option R) s :
  (forall c t, cset_in k c = true -> cont (c :: t) = None) ->
  star k cont s = cont (drop_while (cset_in k) s).
Proof.
  intros Hc; induction s as [|c t IH]; simpl; [reflexivity|].
  destruct (cset_in k c) eqn:E; [|reflexivity].
  rewrite IH. destruct (cont (drop_while (cset_in k) t)) eqn:E2; [reflexivity|].
  now apply Hc.
Qed.

(** What is left after a match is a suffix of the subject. *)
Lemma star_suffix (R : Type) (P : R -> text -> Prop) k (cont : text -> option R) :
  (forall s r, cont s = Some r -> P r s) ->
  (forall r c s, P r s -> P r (c :: s)) ->
  forall s r, star k cont s = Some r -> P r s.
Proof.
  intros Hc Hext; induction s as [|c t IH]; simpl; intros r H.
  - now apply Hc.
  - destruct (cset_in k c).
    + destruct (star k cont t) eqn:E.
      * inversion H; subst. apply Hext, IH; assumption.
      * now apply Hc.
    + now apply Hc.
Qed.

Lemma lazy_suffix (R : Type) (P : R -> text -> Prop) k (cont : text -> option R) :
  (forall s r, cont s = Some r -> P r s) ->
  (forall r c s, P r s -> P r (c :: s)) ->
  forall s r, lazy k cont s = Some r -> P r s.
Proof.
  intros Hc Hext; induction s as [|c t IH]; simpl; intros r H.
  - destruct (cont []) eqn:E; [inversion H; subst; now apply Hc | discriminate].
  - destruct (cont (c :: t)) eqn:E.
    + inversion H; subst; now apply Hc.
    + destruct (cset_in k c); [|discriminate]. apply Hext, IH; assumption.
Qed.

Lemma suffix_of_refl s : suffix_of s s.
Proof. now exists []. Qed.

Lemma suffix_of_cons r c s : suffix_of r s -> suffix_of r (c :: s).
Proof. intros [pre ->]. now exists (c :: pre). Qed.

Lemma run_suffix ops acc s mk mk' rest :
  run ops acc s mk = Some (mk', rest) -> suffix_of rest s.
Proof.
  revert s mk mk' rest; induction ops as [|o ops IH]; intros s mk mk' rest; simpl.
  - destruct (acc s); intros H; inversion H; subst. apply suffix_of_refl.
  - destruct o as [k|k|k|i|].
    + destruct s as [|c t]; [discriminate|].
      destruct (cset_in k c); [|discriminate].
      intros H. apply suffix_of_cons. eapply IH; eassumption.
    + intros H.
      apply (star_suffix (fun r s => suffix_of (snd r) s) k
               (fun s' => run ops acc s' mk)) in H; [exact H| |].
      * intros s0 [m0 r0] H0. simpl. eapply IH; eassumption.
      * intros r c s0. apply suffix_of_cons.
    + intros H.
      apply (lazy_suffix (fun r s => suffix_of (snd r) s) k
               (fun s' => run ops acc s' mk)) in H; [exact H| |].
      * intros s0 [m0 r0] H0. simpl. eapply IH; eassumption.
      * intros r c s0. apply suffix_of_cons.
    + apply IH.
    + destruct (at_end s); [apply IH | discriminate].
Qed.

Lemma match_here_suffix ops s adv mk rest :
  match_here ops s adv = Some (mk, rest) -> suffix_of rest s.
Proof. apply run_suffix. Qed.

(** Passing over the rest of a match. *)
Lemma sub_from_skip ops tpl s n :
  n <= length s -> sub_from ops tpl s n = sub ops tpl (skipn n s).
Proof.
  revert n; induction s as [|c t IH]; intros n Hn; simpl in *.
  - assert (n = 0) by lia. subst. reflexivity.
  - destruct n as [|n]; [reflexivity|]. simpl. apply IH. lia.
Qed.

Lemma sub_cons ops tpl c t :
  sub ops tpl (c :: t) =
  match match_here ops (c :: t) false with
  | Some (mk, rest) =>
      expand tpl mk ++
      match length (c :: t) - length rest with
      | S n => sub_from ops tpl t n
      | O =>
          match match_here ops (c :: t) true with
          | Some (mk', rest') =>
              expand tpl mk' ++
              sub_from ops tpl t (length (c :: t) - length rest' - 1)
          | None => c :: sub ops tpl t
          end
      end
  | None => c :: sub ops tpl t
  end.
Proof. reflexivity. Qed.

(** A non-empty match at the start is replaced and the substitution goes
    on after it. *)
Lemma sub_hit ops tpl s mk rest :
  match_here ops s false = Some (mk, rest) ->
  length rest < length s ->
  sub ops tpl s = expand tpl mk ++ sub ops tpl rest.
Proof.
  intros H Hlen. destruct (match_here_suffix _ _ _ H) as [pre ->].
  destruct pre as [|c pre]; [simpl in Hlen; lia|].
  change ((c :: pre) ++ rest) with (c :: pre ++ rest) in *.
  rewrite sub_cons, H.
  replace (length (c :: pre ++ rest) - length rest) with (S (length pre))
    by (change (length (c :: pre ++ rest)) with (S (length (pre ++ rest)));
        rewrite length_app; lia).
  rewrite sub_from_skip by (rewrite length_app; lia).
  now rewrite skipn_app, skipn_all, Nat.sub_diag.
Qed.

(** No match at the start: the character is copied. *)
Lemma sub_miss ops tpl c t :
  match_here ops (c :: t) false = None ->
  sub ops tpl (c :: t) = c :: sub ops tpl t.
Proof. intros H. now rewrite sub_cons, H. Qed.

Lemma search_none_cons ops c t :
  search ops (c :: t) = None ->
  match_here ops (c :: t) false = None /\ search ops t = None.
Proof.
  simpl. destruct (match_here ops (c :: t) false); [discriminate|]. now split.
Qed.

Lemma search_some ops s r :
  search ops s = Some r ->
  exists pre s', s = pre ++ s' /\ match_here ops s' false = Some r.
Proof.
  induction s as [|c t IH]; simpl.
  - destruct (match_here ops [] false) eqn:E; [|discriminate].
    intros H; inversion H; subst. now exists [], [].
  - destruct (match_here ops (c :: t) false) eqn:E.
    + intros H; inversion H; subst. now exists [], (c :: t).
    + intros H. destruct (IH H) as (pre & s' & -> & Hm).
      now exists (c :: pre), s'.
Qed.

(** A text that the pattern matches nowhere is left as it is. *)
Lemma sub_no_match ops tpl s :
  search ops s = None -> sub ops tpl s = s.
Proof.
  induction s as [|c t IH]; intros H.
  - unfold sub. simpl in *. now destruct (match_here ops [] false).
  - apply search_none_cons in H as [H1 H2].
    rewrite sub_miss by assumption. now rewrite IH.
Qed.

End ReFacts.

(** * Rule B: the broken protocol prefix *)

Module RuleB.
Import Re Rules Shape ReFacts.

Lemma text_len_ind (P : text -> Prop) :
  (forall t, (forall u, length u < length t -> P u) -> P t) ->
  forall t, P t.
Proof.
  intros H t. remember (length t) as n eqn:E. revert t E.
  induction n as [n IH] using lt_wf_ind. intros t ->.
  apply H. intros u Hu. now apply (IH (length u)).
Qed.

Lemma occ_length_lt r : length r < length (occ ++ r).
Proof. rewrite length_app. simpl. lia. Qed.

Lemma match_here_B s adv :
  match_here ruleB_pattern s adv =
  match strip_prefix occ s with
  | Some r => Some ([], r)
  | None => None
  end.
Proof.
  unfold match_here, ruleB_pattern, lits.
  rewrite <- (app_nil_r (map _ _)), run_lits. fold occ.
  destruct (strip_prefix occ s) as [r|] eqn:E; [|reflexivity].
  apply strip_prefix_app in E. subst s. cbn [run].
  rewrite (proj2 (Nat.ltb_lt _ _) (occ_length_lt r)).
  now rewrite orb_true_r.
Qed.

Lemma ruleB_nil : ruleB [] = [].
Proof. reflexivity. Qed.

Lemma ruleB_hit r : ruleB (occ ++ r) = fixedB ++ ruleB r.
Proof.
  unfold ruleB.
  rewrite (@sub_hit ruleB_pattern ruleB_repl (occ ++ r) [] r).
  - reflexivity.
  - now rewrite match_here_B, strip_prefix_self.
  - rewrite length_app. simpl. lia.
Qed.

Lemma ruleB_miss c t :
  strip_prefix occ (c :: t) = None -> ruleB (c :: t) = c :: ruleB t.
Proof.
  intros H. unfold ruleB. apply sub_miss. now rewrite match_here_B, H.
Qed.

(** Rule B changes nothing but a [*] after a [/], into a [/]. *)
Lemma ruleB_slashed t : forall p, slashed p t (ruleB t).
Proof.
  induction t as [t IH] using text_len_ind. intros p.
  destruct t as [|c t]; [rewrite ruleB_nil; constructor|].
  destruct (strip_prefix occ (c :: t)) as [r|] eqn:E.
  - apply strip_prefix_app in E. rewrite E, ruleB_hit.
    assert (Hr : length r < length (c :: t)) by (rewrite E; apply occ_length_lt).
    cbv [occ fixedB cp ch map list_ascii_of_string N_of_ascii N_of_digits app
         N.add N.mul Pos.add Pos.mul Pos.succ].
    repeat apply slashed_same. apply slashed_star. now apply IH.
  - rewrite ruleB_miss by assumption. apply slashed_same, IH. simpl; lia.
Qed.

Lemma occ_chars : occ = [104; 116; 116; 112; 58; 47; 42]%N.
Proof. reflexivity. Qed.

Lemma fixedB_chars : fixedB = [104; 116; 116; 112; 58; 47; 47]%N.
Proof. reflexivity. Qed.

(** An occurrence in the output was an occurrence in the input. *)
Lemma slashed_occ_back p t R r :
  slashed p t R -> R = occ ++ r -> exists r', t = occ ++ r'.
Proof.
  rewrite occ_chars. intros H ->. simpl in H.
  do 7 inv_slashed. now eexists.
Qed.

Lemma search_B_cons c t :
  search ruleB_pattern (c :: t) =
  match strip_prefix occ (c :: t) with
  | Some r => Some ([], r)
  | None => search ruleB_pattern t
  end.
Proof.
  cbn [search]. rewrite match_here_B.
  now destruct (strip_prefix occ (c :: t)).
Qed.

Lemma search_B_skip c t :
  strip_prefix occ (c :: t) = None ->
  search ruleB_pattern (c :: t) = search ruleB_pattern t.
Proof. intros H. now rewrite search_B_cons, H. Qed.

(** After Rule B no occurrence is left. *)
Lemma ruleB_no_occ t : search ruleB_pattern (ruleB t) = None.
Proof.
  induction t as [t IH] using text_len_ind.
  destruct t as [|c t]; [reflexivity|].
  destruct (strip_prefix occ (c :: t)) as [r|] eqn:E.
  - apply strip_prefix_app in E. rewrite E, ruleB_hit.
    assert (Hr : length r < length (c :: t)) by (rewrite E; apply occ_length_lt).
    rewrite fixedB_chars. cbn [app].
    do 7 (rewrite search_B_skip by reflexivity).
    now apply IH.
  - rewrite ruleB_miss by assumption. rewrite search_B_cons.
    destruct (strip_prefix occ (c :: ruleB t)) as [r|] eqn:E2.
    + apply strip_prefix_app in E2.
      destruct (@slashed_occ_back 0%N (c :: t) (c :: ruleB t) r) as [r' Hr'].
      * apply slashed_same, ruleB_slashed.
      * assumption.
      * rewrite Hr', strip_prefix_self in E. discriminate.
    + apply IH. simpl; lia.
Qed.


(** Two occurrences never overlap. *)
Lemma occ_no_overlap c p q r :
  strip_prefix occ ((c :: p) ++ occ ++ q) = Some r ->
  exists p', c :: p = occ ++ p'.
Proof.
  intros H. apply strip_prefix_app in H. revert H.
  rewrite occ_chars.
  destruct p as [|c1 [|c2 [|c3 [|c4 [|c5 [|c6 p]]]]]]; cbn [app];
    intros H; inversion H; subst; try discriminate.
  now eexists.
Qed.

(** Every occurrence is rewritten, wherever it stands. *)
Lemma ruleB_app (p q : text) : ruleB (p ++ occ ++ q) = ruleB p ++ fixedB ++ ruleB q.
Proof.
  induction p as [p IH] using text_len_ind.
  destruct p as [|c p];
    [change ([] ++ occ ++ q) with (occ ++ q); now rewrite ruleB_nil, ruleB_hit|].
  destruct (strip_prefix occ ((c :: p) ++ occ ++ q)) as [r|] eqn:E.
  - destruct (occ_no_overlap _ _ _ E) as [p' Hp']. rewrite Hp'.
    rewrite <- app_assoc, !ruleB_hit, IH, <- app_assoc; [reflexivity|].
    rewrite Hp'. apply occ_length_lt.
  - change ((c :: p) ++ occ ++ q) with (c :: (p ++ occ ++ q)).
    rewrite ruleB_miss by exact E.
    rewrite IH by (simpl; lia).
    rewrite ruleB_miss; [reflexivity|].
    destruct (strip_prefix occ (c :: p)) as [r|] eqn:E2; [|reflexivity].
    apply strip_prefix_app in E2. rewrite E2, <- app_assoc, strip_prefix_self in E.
    discriminate.
Qed.

End RuleB.

(** * Rule C: the double closer *)

Module RuleC.
Import Re Rules Shape ReFacts.

Lemma closer_chars : closer = [42; 47]%N.
Proof. reflexivity. Qed.

Lemma drop_while_app f (ws : text) c r :
  forallb f ws = true -> f c = false ->
  drop_while f (ws ++ c :: r) = c :: r.
Proof.
  intros Hws Hc. induction ws as [|w ws IH]; simpl in *.
  - now rewrite Hc.
  - apply andb_prop in Hws as [Hw Hws]. rewrite Hw. now apply IH.
Qed.

Lemma firstn_exact (a b : text) :
  firstn (length (a ++ b) - length b) (a ++ b) = a.
Proof.
  rewrite length_app, Nat.add_sub, firstn_app, Nat.sub_diag, firstn_all.
  simpl. now rewrite app_nil_r.
Qed.

Lemma match_here_C s :
  match_here ruleC_pattern s false =
  match c_here s with
  | Some (s1, rest) => Some ([(1, s1); (0, s)], rest)
  | None => None
  end.
Proof.
  unfold match_here, ruleC_pattern, c_here. cbn [run negb orb].
  destruct s as [|c0 s]; [reflexivity|].
  cbn [cset_in]. change (ch "*") with 42%N. change (ch "/") with 47%N.
  destruct (c0 =? 42)%N; [|destruct s; reflexivity].
  destruct s as [|c1 s]; [reflexivity|].
  destruct (c1 =? 47)%N; [|reflexivity]. cbn [andb].
  rewrite star_drop.
  2:{ intros c t Hc. destruct (N.eqb_spec c 42) as [->|]; [discriminate|reflexivity]. }
  change (cset_in CSpace) with is_space.
  destruct (drop_while is_space s) as [|d0 r] eqn:E; [reflexivity|].
  destruct (d0 =? 42)%N; [|destruct r; reflexivity].
  destruct r as [|d1 r]; [reflexivity|].
  destruct (d1 =? 47)%N; reflexivity.
Qed.

Lemma expand_group1 s s1 :
  expand [TGroup 1] [(1, s1); (0, s)] = firstn (length s - length s1) s.
Proof. simpl. now rewrite app_nil_r. Qed.


Lemma c_here_collapse (ws q : text) :
  forallb is_space ws = true ->
  c_here (42 :: 47 :: ws ++ 42 :: 47 :: q)%N = Some ((42 :: 47 :: q)%N, q).
Proof.
  intros Hws. unfold c_here. cbn [N.eqb Pos.eqb andb].
  now rewrite drop_while_app by (assumption || reflexivity).
Qed.

(** The first closer and the white space after it stay, the second closer
    goes, and the pass goes on behind it. *)
Lemma ruleC_collapse (ws q : text) :
  forallb is_space ws = true ->
  ruleC (closer ++ ws ++ closer ++ q) = closer ++ ws ++ ruleC q.
Proof.
  intros Hws. rewrite closer_chars. cbn [app]. unfold ruleC.
  rewrite (@sub_hit ruleC_pattern ruleC_repl _
             [(1, (42 :: 47 :: q)%N); (0, (42 :: 47 :: ws ++ 42 :: 47 :: q)%N)] q).
  - unfold ruleC_repl. rewrite expand_group1.
    change (42 :: 47 :: ws ++ 42 :: 47 :: q)%N
      with (((42 :: 47 :: ws) ++ (42 :: 47 :: q))%N).
    rewrite firstn_exact. reflexivity.
  - now rewrite match_here_C, c_here_collapse.
  - simpl. rewrite length_app. simpl. lia.
Qed.

End RuleC.

(** * Rule A: the stray closer after an import *)

Module RuleA.
Import Re Rules Shape ReFacts RuleB RuleC.

Lemma import_kw_chars : import_kw = [64; 105; 109; 112; 111; 114; 116; 32]%N.
Proof. reflexivity. Qed.

Lemma tail_run (s : text) mk t :
  run ruleA_tail (fun s' : text => negb false || (length s' <? length s)) t mk =
  match a_tail t with
  | Some e => Some (mk, e)
  | None => None
  end.
Proof.
  unfold ruleA_tail. rewrite run_star, star_drop.
  2:{ intros c u Hc. rewrite run_char. cbn [cset_in].
      destruct (N.eqb_spec c (ch "*")) as [->|]; [discriminate|reflexivity]. }
  unfold a_tail. change (cset_in CSpace) with is_space.
  destruct (drop_while is_space t) as [|d0 r]; [reflexivity|].
  rewrite run_char. cbn [cset_in]. change (ch "*") with 42%N.
  destruct (d0 =? 42)%N; [|destruct r; reflexivity].
  destruct r as [|d1 r]; [reflexivity|].
  rewrite run_char. cbn [cset_in]. change (ch "/") with 47%N.
  destruct (d1 =? 47)%N; [|reflexivity]. cbn [andb].
  rewrite run_end. destruct (at_end r); reflexivity.
Qed.

Lemma semi_run (s : text) mk u :
  run (OChar (CLit (ch ";")) :: OMark 1 :: ruleA_tail)
      (fun s' : text => negb false || (length s' <? length s)) u mk =
  match u with
  | c :: t =>
      match (if (c =? 59)%N then a_tail t else None) with
      | Some e => Some ((1, t) :: mk, e)
      | None => None
      end
  | [] => None
  end.
Proof.
  destruct u as [|c t]; [reflexivity|].
  rewrite run_char. cbn [cset_in]. change (ch ";") with 59%N.
  destruct (c =? 59)%N; [|reflexivity].
  now rewrite run_mark, tail_run.
Qed.

Lemma scan_run (s : text) mk r :
  lazy CAny
       (fun u =>
          match u with
          | c :: t =>
              match (if (c =? 59)%N then a_tail t else None) with
              | Some e => Some ((1, t) :: mk, e)
              | None => None
              end
          | [] => None
          end) r =
  match a_scan r with
  | Some (s1, e) => Some ((1, s1) :: mk, e)
  | None => None
  end.
Proof.
  induction r as [|c t IH]; [reflexivity|].
  cbn [lazy a_scan cset_in].
  destruct (if (c =? 59)%N then a_tail t else None); [reflexivity|].
  destruct (c =? NL)%N; [reflexivity|]. exact IH.
Qed.

Lemma ruleA_pattern_parts :
  ruleA_pattern =
  OMark 0 :: map (fun c => OChar (CLit c)) import_kw ++
  OLazy CAny :: OChar (CLit (ch ";")) :: OMark 1 :: ruleA_tail.
Proof. reflexivity. Qed.

Lemma match_here_A s :
  match_here ruleA_pattern s false =
  match a_here s with
  | Some (s1, e) => Some ([(1, s1); (0, s)], e)
  | None => None
  end.
Proof.
  unfold match_here, a_here. rewrite ruleA_pattern_parts, run_mark, run_lits.
  fold import_kw.
  destruct (strip_prefix import_kw s) as [r|]; [|reflexivity].
  rewrite run_lazy.
  rewrite (lazy_ext _ _ _ _ (semi_run s [(0, s)])).
  apply (scan_run s).
Qed.

Lemma at_end_cases e : at_end e = true -> e = [] \/ e = [NL].
Proof.
  destruct e as [|c [|d e]]; simpl; intros H; try discriminate; auto.
  apply N.eqb_eq in H. subst. now right.
Qed.

Lemma drop_while_split f (s : text) :
  exists ws, s = ws ++ drop_while f s /\ forallb f ws = true.
Proof.
  induction s as [|c t (ws & E & Hws)]; simpl.
  - now exists [].
  - destruct (f c) eqn:Hc.
    + exists (c :: ws). simpl. rewrite Hc, Hws. split; [now f_equal | reflexivity].
    + now exists [].
Qed.

Lemma a_tail_spec t e :
  a_tail t = Some e ->
  exists ws, t = ws ++ 42%N :: 47%N :: e /\ forallb is_space ws = true
             /\ at_end e = true.
Proof.
  unfold a_tail. destruct (drop_while_split is_space t) as (ws & E & Hws).
  destruct (drop_while is_space t) as [|d0 [|d1 r]]; try discriminate.
  destruct (N.eqb_spec d0 42) as [->|]; [|discriminate].
  destruct (N.eqb_spec d1 47) as [->|]; [|discriminate].
  destruct (at_end r) eqn:Hr; [|discriminate].
  intros H; inversion H; subst r. now exists ws.
Qed.

Lemma a_scan_spec r s1 e :
  a_scan r = Some (s1, e) ->
  exists g, r = g ++ 59%N :: s1 /\ a_tail s1 = Some e.
Proof.
  revert s1 e; induction r as [|c t IH]; intros s1 e; [discriminate|].
  cbn [a_scan]. destruct (N.eqb_spec c 59) as [->|Hc].
  - destruct (a_tail t) as [e'|] eqn:Ht.
    + intros H; inversion H; subst. now exists [].
    + cbn. intros H. destruct (IH _ _ H) as (g & -> & Hg).
      now exists (59%N :: g).
  - destruct (c =? NL)%N; [discriminate|].
    intros H. destruct (IH _ _ H) as (g & -> & Hg). now exists (c :: g).
Qed.

Lemma a_here_spec s s1 e :
  a_here s = Some (s1, e) ->
  exists g, s = import_kw ++ g ++ 59%N :: s1 /\ a_tail s1 = Some e.
Proof.
  unfold a_here. fold import_kw.
  destruct (strip_prefix import_kw s) as [r|] eqn:E; [|discriminate].
  apply strip_prefix_app in E. intros H.
  destruct (a_scan_spec _ H) as (g & -> & Hg). now exists g.
Qed.

Lemma search_A_cons c t :
  search ruleA_pattern (c :: t) =
  match a_here (c :: t) with
  | Some (s1, e) => Some ([(1, s1); (0, c :: t)], e)
  | None => search ruleA_pattern t
  end.
Proof.
  cbn [search]. rewrite match_here_A.
  now destruct (a_here (c :: t)) as [[s1 e]|].
Qed.

Lemma ruleA_rest e : at_end e = true -> ruleA e = e.
Proof. intros H. destruct (at_end_cases _ H) as [->| ->]; reflexivity. Qed.

(** Where Rule A matches, what goes is white space and a closer that end
    the text (one newline may follow); the group, which ends with the
    [;], stays. *)
Lemma ruleA_hit s s1 e :
  a_here s = Some (s1, e) ->
  exists g ws,
    s = g ++ 59%N :: ws ++ 42%N :: 47%N :: e /\
    ruleA s = g ++ 59%N :: e /\
    forallb is_space ws = true /\ at_end e = true.
Proof.
  intros H. destruct (a_here_spec _ H) as (g & Hs & Ht).
  destruct (a_tail_spec _ Ht) as (ws & Hs1 & Hws & He).
  exists (import_kw ++ g), ws.
  split; [subst s1; now rewrite <- app_assoc|].
  split; [|now split].
  unfold ruleA.
  rewrite (@sub_hit ruleA_pattern ruleA_repl s [(1, s1); (0, s)] e).
  - unfold ruleA_repl. rewrite expand_group1.
    fold (ruleA e). rewrite ruleA_rest by assumption.
    replace s with ((import_kw ++ g ++ [59%N]) ++ s1)
      by (rewrite Hs, <- !app_assoc; reflexivity).
    rewrite firstn_exact, <- !app_assoc. reflexivity.
  - now rewrite match_here_A, H.
  - rewrite Hs, Hs1. rewrite ?length_app; simpl; rewrite ?length_app; simpl.
    rewrite ?length_app; simpl. lia.
Qed.

(** Rule A changes a text at its end only. *)
Lemma ruleA_shape t :
  search ruleA_pattern t = None \/
  exists y ws e,
    t = y ++ 59%N :: ws ++ 42%N :: 47%N :: e /\
    ruleA t = y ++ 59%N :: e /\
    forallb is_space ws = true /\ at_end e = true.
Proof.
  induction t as [|c t IH]; [now left|].
  rewrite search_A_cons.
  destruct (a_here (c :: t)) as [[s1 e]|] eqn:E.
  - right. destruct (ruleA_hit _ E) as (g & ws & Hs & Hr & Hws & He).
    now exists g, ws, e.
  - destruct IH as [IH|(y & ws & e & Ht & Hr & Hws & He)]; [now left|right].
    exists (c :: y), ws, e. split; [now rewrite Ht|]. split; [|now split].
    unfold ruleA in *. rewrite sub_miss by (now rewrite match_here_A, E).
    now rewrite Hr.
Qed.




(** ** Rule A after Rule B *)








End RuleA.

(** * The traversal *)

Module FinderFacts.
Import Rules Finder.

#[local] Arguments apply_fixes : simpl never.

Lemma text_eqb_eq a b : text_eqb a b = true <-> a = b.
Proof.
  revert b; induction a as [|x a IH]; intros [|y b]; simpl;
    try (split; intros H; [discriminate | inversion H]); [tauto|].
  rewrite andb_true_iff, N.eqb_eq, IH.
  split; [intros [-> ->]; reflexivity | intros H; inversion H; auto].
Qed.

Lemma text_eqb_refl a : text_eqb a a = true.
Proof. now apply text_eqb_eq. Qed.

Lemma text_eqb_neq a b : a <> b -> text_eqb a b = false.
Proof.
  intros H. destruct (text_eqb a b) eqn:E; [|reflexivity].
  apply text_eqb_eq in E. contradiction.
Qed.

Lemma path_eqb_eq p q : path_eqb p q = true <-> p = q.
Proof.
  unfold path_eqb. destruct (list_eq_dec string_dec p q); split; intros H;
    try reflexivity; try assumption; try discriminate; contradiction.
Qed.

(** An induction principle that reaches the sub-directories. *)
Lemma tree_ind (P : tree -> Prop) :
  (forall dirs files,
      Forall (fun d => P (snd d)) dirs -> P (Dir dirs files)) ->
  forall t, P t.
Proof.
  intros H. fix IH 1. intros [dirs files]. apply H.
  induction dirs as [|d dirs IHd]; constructor; [apply IH | exact IHd].
Qed.

Section Run.
Variable decode : list Byte.byte -> text.
Variable encode : text -> list Byte.byte.
Variable fix_mode : bool.

Local Abbreviation process_file := (Finder.process_file decode encode fix_mode).
Local Abbreviation for_files := (Finder.for_files decode encode fix_mode).
Local Abbreviation for_paths := (Finder.for_paths decode encode fix_mode).
Local Abbreviation walk := (Finder.walk decode encode fix_mode).
Local Abbreviation process_css_files :=
  (Finder.process_css_files decode encode fix_mode).

(** The per-file step, case by case. *)
Lemma process_file_read_fault p st e :
  f_read_fault (st_disk st p) = Some e ->
  process_file p st =
  (mkState (st_disk st) (console st ++ [CouldNotRead p e])
           (trace st ++ [EvRead p]) (files_processed st) (errors_found st),
   Ok tt).
Proof.
  intros H. unfold Finder.process_file, try_except, file_body,
    bind, read_text. now rewrite H.
Qed.

Lemma process_file_clean p st :
  f_read_fault (st_disk st p) = None ->
  apply_fixes (decode (f_bytes (st_disk st p))) =
    decode (f_bytes (st_disk st p)) ->
  process_file p st =
  (mkState (st_disk st) (console st) (trace st ++ [EvRead p])
           (files_processed st + 1) (errors_found st), Ok tt).
Proof.
  intros H Hc. unfold Finder.process_file, try_except, file_body,
    bind, read_text. rewrite H. cbn [log_event].
  rewrite Hc, text_eqb_refl. reflexivity.
Qed.

Lemma process_file_found p st :
  fix_mode = false ->
  f_read_fault (st_disk st p) = None ->
  apply_fixes (decode (f_bytes (st_disk st p))) <>
    decode (f_bytes (st_disk st p)) ->
  process_file p st =
  (mkState (st_disk st) (console st ++ [Found p]) (trace st ++ [EvRead p])
           (files_processed st + 1) (errors_found st + 1), Ok tt).
Proof.
  intros Hm H Hc. unfold Finder.process_file, try_except,
    file_body, bind, read_text. rewrite H, Hm. cbn [log_event].
  rewrite (text_eqb_neq Hc). reflexivity.
Qed.

Lemma process_file_fixed p st :
  fix_mode = true ->
  f_read_fault (st_disk st p) = None ->
  apply_fixes (decode (f_bytes (st_disk st p))) <>
    decode (f_bytes (st_disk st p)) ->
  f_write_fault (st_disk st p) = None ->
  process_file p st =
  (mkState (disk_set (st_disk st) p
              (mkFile (encode (apply_fixes (decode (f_bytes (st_disk st p)))))
                      None None))
           (console st ++ [Fixed p]) (trace st ++ [EvRead p; EvWrite p])
           (files_processed st + 1) (errors_found st + 1), Ok tt).
Proof.
  intros Hm H Hc Hw. unfold Finder.process_file, try_except,
    file_body, bind, read_text, write_text. rewrite H, Hm. cbn [log_event].
  rewrite (text_eqb_neq Hc). cbn. rewrite Hw, H. cbn.
  now rewrite <- ?app_assoc.
Qed.

Lemma process_file_write_fault p st e partial :
  fix_mode = true ->
  f_read_fault (st_disk st p) = None ->
  apply_fixes (decode (f_bytes (st_disk st p))) <>
    decode (f_bytes (st_disk st p)) ->
  f_write_fault (st_disk st p) = Some (e, partial) ->
  process_file p st =
  (mkState (disk_set (st_disk st) p (mkFile partial None (Some (e, partial))))
           (console st ++ [Fixed p; CouldNotRead p e])
           (trace st ++ [EvRead p; EvWrite p])
           (files_processed st) (errors_found st + 1), Ok tt).
Proof.
  intros Hm H Hc Hw. unfold Finder.process_file, try_except,
    file_body, bind, read_text, write_text. rewrite H, Hm. cbn [log_event].
  rewrite (text_eqb_neq Hc). cbn. rewrite Hw, H. cbn.
  unfold print, set_disk, log_event. cbn. now rewrite <- ?app_assoc.
Qed.

(** Whatever happens to a file, the step ends normally; the trace
    gains the read and at most a write of that file, the console only
    grows, other files and all fault attributes stay. *)
Lemma process_file_effect p st :
  exists st',
    process_file p st = (st', Ok tt) /\
    (exists evs, trace st' = trace st ++ EvRead p :: evs /\
                 (evs = [] \/ (fix_mode = true /\ evs = [EvWrite p]))) /\
    (exists ls, console st' = console st ++ ls) /\
    (forall q, q <> p -> st_disk st' q = st_disk st q) /\
    (fix_mode = false -> st_disk st' = st_disk st) /\
    (forall q, f_read_fault (st_disk st' q) = f_read_fault (st_disk st q) /\
               f_write_fault (st_disk st' q) = f_write_fault (st_disk st q)).
Proof.
  assert (Hset : forall b q, q <> p ->
            disk_set (st_disk st) p b q = st_disk st q).
  { intros b q Hq. unfold disk_set.
    destruct (path_eqb q p) eqn:E; [|reflexivity].
    apply path_eqb_eq in E. contradiction. }
  assert (Hf : forall b q,
            f_read_fault b = f_read_fault (st_disk st p) ->
            f_write_fault b = f_write_fault (st_disk st p) ->
            f_read_fault (disk_set (st_disk st) p b q) =
              f_read_fault (st_disk st q) /\
            f_write_fault (disk_set (st_disk st) p b q) =
              f_write_fault (st_disk st q)).
  { intros b q H1 H2. unfold disk_set.
    destruct (path_eqb q p) eqn:E; [|now split].
    apply path_eqb_eq in E. subst q. now split. }
  assert (Hnil : forall l : list line, exists ls, l = l ++ ls)
    by (intros l; exists []; now rewrite app_nil_r).
  destruct (f_read_fault (st_disk st p)) as [e|] eqn:Hr.
  { eexists. split; [apply process_file_read_fault; eassumption|]. cbn.
    split; [exists []; split; [reflexivity | now left]|].
    repeat split; eauto. }
  destruct (text_eqb (apply_fixes (decode (f_bytes (st_disk st p))))
                     (decode (f_bytes (st_disk st p)))) eqn:Hc.
  { apply text_eqb_eq in Hc.
    eexists. split; [apply process_file_clean; assumption|]. cbn.
    split; [exists []; split; [reflexivity | now left]|].
    repeat split; eauto. }
  assert (Hne : apply_fixes (decode (f_bytes (st_disk st p))) <>
                decode (f_bytes (st_disk st p))).
  { intros E. apply text_eqb_eq in E. congruence. }
  destruct (bool_dec fix_mode true) as [Hm|Hm];
    [|apply not_true_is_false in Hm].
  - destruct (f_write_fault (st_disk st p)) as [[e partial]|] eqn:Hw.
    + eexists. split; [apply process_file_write_fault; eassumption|]. cbn.
      split; [exists [EvWrite p]; split; [reflexivity | now right]|].
      split; [eauto|]. split; [intros q Hq; now apply Hset|].
      split; [intros Hx; congruence|]. intros q. apply Hf; reflexivity.
    + eexists. split; [apply process_file_fixed; assumption|]. cbn.
      split; [exists [EvWrite p]; split; [reflexivity | now right]|].
      split; [eauto|]. split; [intros q Hq; now apply Hset|].
      split; [intros Hx; congruence|]. intros q. apply Hf; reflexivity.
  - eexists. split; [apply process_file_found; assumption|]. cbn.
    split; [exists []; split; [reflexivity | now left]|].
    repeat split; eauto.
Qed.

Lemma process_file_ok p st : snd (process_file p st) = Ok tt.
Proof. destruct (process_file_effect p st) as (st' & E & _). now rewrite E. Qed.

Lemma bind_process_file (k : M unit) p st :
  (process_file p ;;; k) st = k (fst (process_file p st)).
Proof.
  unfold bind. destruct (process_file_effect p st) as (st' & E & _).
  now rewrite E.
Qed.

Lemma for_paths_cons p ps st :
  for_paths (p :: ps) st = for_paths ps (fst (process_file p st)).
Proof. apply bind_process_file. Qed.

Lemma for_paths_ok ps st : snd (for_paths ps st) = Ok tt.
Proof.
  revert st; induction ps as [|p ps IH]; intros st; [reflexivity|].
  rewrite for_paths_cons. apply IH.
Qed.

Lemma for_paths_app ps qs st :
  for_paths (ps ++ qs) st = for_paths qs (fst (for_paths ps st)).
Proof.
  revert st; induction ps as [|p ps IH]; intros st; [reflexivity|].
  cbn [app]. rewrite !for_paths_cons. apply IH.
Qed.

(** The loop over the files of one directory. *)
Lemma for_files_paths root files st :
  for_files root files st =
  for_paths (map (join root)
                 (filter (fun file => endswith file ".css") files)) st.
Proof.
  revert st; induction files as [|f files IH]; intros st; [reflexivity|].
  cbn [Finder.for_files filter].
  destruct (endswith f ".css").
  - cbn [map]. rewrite for_paths_cons, bind_process_file. apply IH.
  - unfold bind at 1. cbn. apply IH.
Qed.

(** The whole walk is the per-file step over [targets]. *)
Lemma walk_targets t : forall root st,
  walk root t st = for_paths (targets root t) st.
Proof.
  induction t as [dirs files IH] using tree_ind. intros root st.
  cbn [Finder.walk targets]. rewrite for_paths_app.
  assert (Hf : forall (k : M unit),
             (for_files root files ;;; k) st =
             k (fst (for_paths
                       (map (join root)
                            (filter (fun file => endswith file ".css") files))
                       st))).
  { intros k. unfold bind at 1. rewrite for_files_paths.
    pose proof (for_paths_ok
                  (map (join root)
                       (filter (fun file => endswith file ".css") files)) st).
    destruct (for_paths _ st) as [st' r]. cbn in *. now subst r. }
  rewrite Hf. clear Hf.
  generalize (fst (for_paths
                     (map (join root)
                          (filter (fun file => endswith file ".css") files))
                     st)).
  generalize false.
  induction dirs as [|[name sub] dirs IHd]; intros removed st1; [reflexivity|].
  inversion IH as [|? ? Hsub Hrest]; subst.
  cbn [for_dirs_pruned flat_dirs_pruned].
  destruct (negb removed && String.eqb name nm); [now apply IHd|].
  rewrite for_paths_app. unfold bind at 1. cbn [snd] in Hsub.
  rewrite Hsub.
  pose proof (for_paths_ok (targets (join root name) sub) st1) as Hok.
  destruct (for_paths (targets (join root name) sub) st1) as [st2 r].
  cbn in *. subst r. now apply IHd.
Qed.

(** [dirs.remove('node_modules')], then the loop over what is left. *)
Lemma for_dirs_pruned_remove body dirs st :
  for_dirs_pruned body dirs false st = for_dirs body (list_remove nm dirs) st.
Proof.
  assert (Ht : forall ds st', for_dirs_pruned body ds true st' = for_dirs body ds st').
  { induction ds as [|[name sub] ds IHd]; intros st'; [reflexivity|].
    cbn. unfold bind. destruct (body name sub st') as [st2 [[]|e]]; [apply IHd|reflexivity]. }
  revert st; induction dirs as [|[name sub] dirs IHd]; intros st; [reflexivity|].
  cbn [for_dirs_pruned list_remove negb andb].
  destruct (String.eqb name nm); [apply Ht|].
  cbn [for_dirs]. unfold bind.
  destruct (body name sub st) as [st2 [[]|e]]; [apply IHd|reflexivity].
Qed.

Lemma walk_unfold root dirs files st :
  walk root (Dir dirs files) st =
  (for_files root files ;;;
   for_dirs (fun name sub => walk (join root name) sub)
            (list_remove nm dirs)) st.
Proof.
  cbn [Finder.walk]. unfold bind.
  destruct (for_files root files st) as [st1 [[]|e]]; [|reflexivity].
  apply for_dirs_pruned_remove.
Qed.

(** ** What a run over a list of paths does *)

Lemma for_paths_trace ps st :
  exists evs,
    trace (fst (for_paths ps st)) = trace st ++ evs /\
    (forall ev, In ev evs ->
                In (event_path ev) ps /\
                (fix_mode = false -> ev = EvRead (event_path ev))) /\
    (forall p, In p ps -> In (EvRead p) evs).
Proof.
  revert st; induction ps as [|p ps IH]; intros st.
  - exists []. cbn. rewrite app_nil_r. repeat split; contradiction.
  - rewrite for_paths_cons.
    destruct (process_file_effect p st) as (st1 & E & (evs1 & Ht & Hev) & _).
    rewrite E. cbn [fst].
    destruct (IH st1) as (evs & Ht' & Hin & Hall).
    exists (EvRead p :: evs1 ++ evs). split; [|split].
    + rewrite Ht', Ht, <- app_assoc. reflexivity.
    + intros ev [<-|Hev']; [cbn; auto|].
      apply in_app_or in Hev' as [Hev'|Hev'].
      * destruct Hev as [->|[Hm ->]]; [contradiction|].
        destruct Hev' as [<-|[]]. cbn. split; [auto | congruence].
      * destruct (Hin _ Hev') as [H1 H2]. split; [now right | assumption].
    + intros q [<-|Hq]; [now left|].
      right. apply in_or_app. right. now apply Hall.
Qed.


Lemma for_paths_disk_other ps st q :
  ~ In q ps -> st_disk (fst (for_paths ps st)) q = st_disk st q.
Proof.
  revert st; induction ps as [|p ps IH]; intros st Hq; [reflexivity|].
  rewrite for_paths_cons.
  destruct (process_file_effect p st) as (st1 & E & _ & _ & Hd & _).
  rewrite E. cbn [fst]. rewrite IH by (intros H; apply Hq; now right).
  apply Hd. intros ->. apply Hq. now left.
Qed.

Lemma for_paths_disk_scan ps st :
  fix_mode = false -> st_disk (fst (for_paths ps st)) = st_disk st.
Proof.
  intros Hm. revert st; induction ps as [|p ps IH]; intros st; [reflexivity|].
  rewrite for_paths_cons.
  destruct (process_file_effect p st) as (st1 & E & _ & _ & _ & Hd & _).
  rewrite E. cbn [fst]. rewrite IH. now apply Hd.
Qed.



(** ** The whole call *)

Lemma print_summary_eq n st :
  print_summary fix_mode n st =
  (mkState (st_disk st) (console st ++ summary_lines fix_mode n) (trace st)
           (files_processed st) (errors_found st), Ok tt).
Proof.
  unfold print_summary, summary_lines.
  destruct fix_mode; [reflexivity|].
  destruct (0 <? n); [|reflexivity].
  unfold bind, print. cbn. now rewrite <- app_assoc.
Qed.

Local Abbreviation walked := (Finder.walked decode encode fix_mode).

Lemma process_css_files_eq root t st :
  process_css_files root t st =
  (mkState (st_disk (walked root t st))
           (console (walked root t st) ++
            summary_lines fix_mode (errors_found (walked root t st)))
           (trace (walked root t st))
           (files_processed (walked root t st))
           (errors_found (walked root t st)), Ok PyNone).
Proof.
  unfold Finder.process_css_files, Finder.walked.
  unfold bind at 1. cbn [reset_counters]. fold (start st).
  unfold bind at 1. rewrite walk_targets.
  pose proof (for_paths_ok (targets root t) (start st)) as Hok.
  destruct (for_paths (targets root t) (start st)) as [st2 r].
  cbn in Hok. subst r. cbn [fst].
  unfold bind, get_errors_found. now rewrite print_summary_eq.
Qed.

End Run.

(** ** Which files are reached *)




End FinderFacts.

(** * The claims *)

Unset Implicit Arguments.

Import Re Rules Shape ReFacts RuleB RuleC RuleA Finder FinderFacts Example.

(** The programs of the table are what the source patterns compile to. *)
Lemma compiled_rules :
  compile (fst ruleA_source) = Some ruleA_pattern /\
  compile (fst ruleB_source) = Some ruleB_pattern /\
  compile (fst ruleC_source) = Some ruleC_pattern /\
  parse_template (list_ascii_of_string (snd ruleA_source)) = ruleA_repl /\
  parse_template (list_ascii_of_string (snd ruleB_source)) = ruleB_repl /\
  parse_template (list_ascii_of_string (snd ruleC_source)) = ruleC_repl.
Proof. repeat split; reflexivity. Qed.

Lemma apply_fixes_eq t : apply_fixes t = ruleC (ruleB (ruleA t)).
Proof. reflexivity. Qed.

Lemma matches_false ops t : matches ops t = false -> search ops t = None.
Proof. unfold matches. now destruct (search ops t). Qed.

(** A text without [@] has no match of Rule A, one without [h] none of
    Rule B. *)
Lemma search_A_no_at t : ~ In 64%N t -> search ruleA_pattern t = None.
Proof.
  induction t as [|c t IH]; intros H; [reflexivity|].
  rewrite search_A_cons.
  assert (Hc : (c =? 64)%N = false)
    by (apply N.eqb_neq; intros ->; apply H; now left).
  unfold a_here. fold import_kw. rewrite import_kw_chars. cbn [strip_prefix].
  rewrite Hc. apply IH. intros Hin. apply H. now right.
Qed.

Lemma search_B_no_h t : ~ In 104%N t -> search ruleB_pattern t = None.
Proof.
  induction t as [|c t IH]; intros H; [reflexivity|].
  rewrite search_B_cons.
  assert (Hc : (c =? 104)%N = false)
    by (apply N.eqb_neq; intros ->; apply H; now left).
  rewrite occ_chars. cbn [strip_prefix]. rewrite Hc.
  apply IH. intros Hin. apply H. now right.
Qed.

Lemma new_events_app st st' evs :
  trace st' = trace st ++ evs -> new_events st st' = evs.
Proof.
  intros H. unfold new_events.
  now rewrite H, skipn_app, skipn_all, Nat.sub_diag.
Qed.

Lemma new_lines_app st st' ls :
  console st' = console st ++ ls -> new_lines st st' = ls.
Proof.
  intros H. unfold new_lines.
  now rewrite H, skipn_app, skipn_all, Nat.sub_diag.
Qed.

(** ** C1: idempotence *)


Lemma disk_set_same d p f : disk_set d p f p = f.
Proof.
  unfold disk_set. destruct (path_eqb p p) eqn:E; [reflexivity|].
  assert (H : path_eqb p p = true) by now apply path_eqb_eq.
  congruence.
Qed.




(** ** C2: Rule A and the end of a line *)

(** C2: with another line after it the declaration is not rewritten: [$]
    is compiled without MULTILINE and only holds at the end of the text.
    Alone, or before one last newline, the line is rewritten.  Whatever
    the text, Rule A changes nothing or takes out white space and a closer
    that end the text. *)
Theorem ruleA_only_on_last_line :
  apply_fixes (import_line ++ NL :: cp "body {}") =
    import_line ++ NL :: cp "body {}" /\
  apply_fixes import_line = import_fixed /\
  apply_fixes (import_line ++ [NL]) = import_fixed ++ [NL] /\
  (forall t : text,
      ruleA t = t \/
      exists y ws e,
        t = y ++ cp ";" ++ ws ++ closer ++ e /\
        ruleA t = y ++ cp ";" ++ e /\
        forallb is_space ws = true /\ (e = [] \/ e = [NL])).
Proof.
  split; [vm_compute; reflexivity|].
  split; [vm_compute; reflexivity|].
  split; [vm_compute; reflexivity|].
  intros t. destruct (ruleA_shape t) as [H|(y & ws & e & Ht & Hr & Hws & He)].
  - left. now apply sub_no_match.
  - right. exists y, ws, e. repeat split; try assumption.
    now apply at_end_cases.
Qed.

(** ** C3: Rule C *)




(** ** C8: Rule B *)

(** C8: Rule B rewrites every occurrence of the broken prefix, wherever it
    stands and however many there are; none is left after its pass. *)
Theorem ruleB_rewrites_every_occurrence :
  (forall p q : text, ruleB (p ++ occ ++ q) = ruleB p ++ fixedB ++ ruleB q) /\
  (forall t : text, matches ruleB_pattern (ruleB t) = false) /\
  apply_fixes (cp "a{b:url(http:/*example.com/x)} c{d:url(http:/*e.org)}") =
    cp "a{b:url(http://example.com/x)} c{d:url(http://e.org)}".
Proof.
  split; [exact ruleB_app|]. split; [|vm_compute; reflexivity].
  intros t. unfold matches. now rewrite ruleB_no_occ.
Qed.

(** ** C9: texts without a defect *)

(** C9: a file whose text none of the three patterns matches is given
    back unchanged by the rule table; its step adds nothing to
    [errors_found], prints nothing and leaves the disk as it is, in either
    mode: only the read is traced and [files_processed] goes up. *)
Theorem clean_file_is_left_alone decode encode fix_mode p st :
  f_read_fault (st_disk st p) = None ->
  matches ruleA_pattern (decode (f_bytes (st_disk st p))) = false ->
  matches ruleB_pattern (decode (f_bytes (st_disk st p))) = false ->
  matches ruleC_pattern (decode (f_bytes (st_disk st p))) = false ->
  apply_fixes (decode (f_bytes (st_disk st p))) =
    decode (f_bytes (st_disk st p)) /\
  process_file decode encode fix_mode p st =
    (mkState (st_disk st) (console st) (trace st ++ [EvRead p])
             (files_processed st + 1) (errors_found st), Ok tt).
Proof.
  intros Hr HA HB HC.
  assert (E : apply_fixes (decode (f_bytes (st_disk st p))) =
              decode (f_bytes (st_disk st p))).
  { rewrite apply_fixes_eq. unfold ruleA, ruleB, ruleC.
    rewrite (sub_no_match ruleA_pattern) by now apply matches_false.
    rewrite (sub_no_match ruleB_pattern) by now apply matches_false.
    now rewrite (sub_no_match ruleC_pattern) by now apply matches_false. }
  split; [exact E|]. now apply process_file_clean.
Qed.

Lemma clean_file_is_left_alone_witness :
  let p := ["b.css"%string] in
  f_read_fault (demo_disk p) = None /\
  errors_found (fst (process_file ascii_decode ascii_encode true p demo_state)) = 0 /\
  trace (fst (process_file ascii_decode ascii_encode true p demo_state)) = [EvRead p].
Proof.
  intros p. split; [reflexivity|].
  destruct (@clean_file_is_left_alone ascii_decode ascii_encode true p demo_state)
    as [_ E]; try reflexivity.
  rewrite E. split; reflexivity.
Defined.

(** ** The run: C4, C5, C6, C7, C10 *)

Section RunClaims.
Variable decode : list Byte.byte -> text.
Variable encode : text -> list Byte.byte.

Lemma run_trace fix_mode root t st :
  exists evs,
    trace (fst (process_css_files decode encode fix_mode root t st)) =
      trace st ++ evs /\
    (forall ev, In ev evs ->
                In (event_path ev) (targets root t) /\
                (fix_mode = false -> ev = EvRead (event_path ev))) /\
    (forall p, In p (targets root t) -> In (EvRead p) evs).
Proof.
  rewrite process_css_files_eq. cbn [fst trace]. unfold walked.
  apply (@for_paths_trace decode encode fix_mode (targets root t) (start st)).
Qed.



End RunClaims.






(** C6: in scan mode the disk after the call is the disk before it, and
    no write is attempted. *)
Theorem scan_mode_never_writes decode encode root t st :
  st_disk (fst (process_css_files decode encode false root t st)) = st_disk st /\
  existsb is_write
    (new_events st (fst (process_css_files decode encode false root t st))) = false.
Proof.
  split.
  - rewrite process_css_files_eq. cbn [fst st_disk]. unfold walked.
    now rewrite for_paths_disk_scan.
  - destruct (run_trace decode encode false root t st) as (evs & Ht & Hin & _).
    rewrite (new_events_app _ _ _ Ht).
    destruct (existsb is_write evs) eqn:E; [|reflexivity].
    apply existsb_exists in E as (ev & Hev & Hw).
    destruct (Hin _ Hev) as [_ Hr]. rewrite (Hr eq_refl) in Hw. discriminate.
Qed.





(** ** The scenario of the specification

    [a.css] has a stray closer after an import, [b.css] is clean and
    [c/node_modules/d.css] has a broken prefix.  A scan reports [a.css]
    only and opens neither [d.css] nor [notes.txt]; a fix run rewrites
    [a.css] only. *)
Example scenario_scan :
  let st := fst (process_css_files ascii_decode ascii_encode false []
                                   demo_tree demo_state) in
  console st = [Found ["a.css"%string]; SummaryFound 1; SummaryHint] /\
  trace st = [EvRead ["a.css"%string]; EvRead ["b.css"%string]].
Proof. split; reflexivity. Qed.

Example scenario_fix :
  let st := fst (process_css_files ascii_decode ascii_encode true []
                                   demo_tree demo_state) in
  console st = [Fixed ["a.css"%string]; SummaryFixed 1] /\
  trace st = [EvRead ["a.css"%string]; EvWrite ["a.css"%string];
              EvRead ["b.css"%string]] /\
  ascii_decode (f_bytes (st_disk st ["a.css"%string])) = cp "@import x;" /\
  f_bytes (st_disk st ["c"%string; nm; "d.css"%string]) =
    f_bytes (demo_disk ["c"%string; nm; "d.css"%string]).
Proof. repeat split; reflexivity. Qed.

(** * Further properties of the rules *)

Import Report.

Lemma app_inv_length {A} (a b c d : list A) :
  a ++ b = c ++ d -> length a = length c -> a = c /\ b = d.
Proof.
  revert c; induction a as [|x a IH]; intros [|y c] H Hl; try discriminate.
  - now split.
  - cbn in H. inversion H; subst. inversion Hl as [Hl'].
    destruct (IH _ H2 Hl') as [-> ->]. now split.
Qed.

Lemma search_app ops (pre s : text) :
  search ops s <> None -> search ops (pre ++ s) <> None.
Proof.
  intros H. induction pre as [|c pre IH]; [exact H|].
  cbn [app search]. now destruct (match_here ops (c :: pre ++ s) false).
Qed.

Lemma search_here ops (s : text) r :
  match_here ops s false = Some r -> search ops s <> None.
Proof. intros H. destruct s; cbn [search]; rewrite H; discriminate. Qed.

(** A pass that puts less than it takes at every match never makes the
    text longer, and makes it shorter when there is a match. *)
Lemma sub_shrinks ops tpl :
  (forall (s : text) mk rest,
      match_here ops s false = Some (mk, rest) ->
      length (expand tpl mk) + length rest < length s) ->
  forall s : text,
    length (sub ops tpl s) <= length s /\
    (search ops s <> None -> length (sub ops tpl s) < length s).
Proof.
  intros Hm s. induction s as [s IH] using text_len_ind.
  destruct s as [|c t].
  - destruct (match_here ops [] false) as [[mk rest]|] eqn:E.
    + apply Hm in E. cbn in E. lia.
    + assert (Hs : search ops [] = None) by (cbn; now rewrite E).
      rewrite (sub_no_match _ _ _ Hs). split; [lia | congruence].
  - destruct (match_here ops (c :: t) false) as [[mk rest]|] eqn:E.
    + pose proof (Hm _ _ _ E) as Hlt.
      rewrite (sub_hit _ tpl _ E) by lia.
      destruct (IH rest) as [Hle _]; [lia|].
      rewrite length_app. split; [lia | intros _; lia].
    + rewrite (sub_miss _ tpl _ _ E).
      destruct (IH t) as [Hle Hlt]; [cbn; lia|].
      cbn [length search]. rewrite E. split; [lia|].
      intros Hs. apply Hlt in Hs. lia.
Qed.

Lemma slashed_length p t r : slashed p t r -> length r = length t.
Proof. induction 1; cbn; congruence. Qed.

Lemma ruleB_length t : length (ruleB t) = length t.
Proof. apply (slashed_length _ _ _ (ruleB_slashed t 0%N)). Qed.

Lemma ruleB_changes t : search ruleB_pattern t <> None -> ruleB t <> t.
Proof.
  intros Hs E.
  destruct (search ruleB_pattern t) as [[mk r]|] eqn:Hsearch; [|congruence].
  destruct (search_some _ _ Hsearch) as (pre & s' & -> & Hm).
  rewrite match_here_B in Hm.
  destruct (strip_prefix occ s') as [r'|] eqn:Hp; [|discriminate].
  apply strip_prefix_app in Hp. subst s'.
  rewrite ruleB_app in E.
  apply app_inv_length in E as [_ E]; [|apply ruleB_length].
  rewrite fixedB_chars, occ_chars in E. cbn in E. discriminate.
Qed.

Lemma ruleA_length t :
  length (ruleA t) <= length t /\
  (search ruleA_pattern t <> None -> length (ruleA t) < length t).
Proof.
  destruct (ruleA_shape t) as [H|(y & ws & e & Ht & Hr & _ & _)].
  - unfold ruleA. rewrite (sub_no_match _ _ _ H). split; [lia | congruence].
  - rewrite Hr, Ht. cbn. rewrite !length_app. cbn. rewrite !length_app. cbn.
    split; [lia | intros _; lia].
Qed.

Lemma c_here_spec s s1 rest :
  c_here s = Some (s1, rest) ->
  exists ws, s = 42%N :: 47%N :: ws ++ s1 /\ s1 = 42%N :: 47%N :: rest /\
             forallb is_space ws = true.
Proof.
  unfold c_here. destruct s as [|c0 [|c1 t]]; try discriminate.
  destruct (N.eqb_spec c0 42) as [->|]; [|discriminate].
  destruct (N.eqb_spec c1 47) as [->|]; [|discriminate]. cbn [andb].
  destruct (drop_while_split is_space t) as (ws & E & Hws).
  destruct (drop_while is_space t) as [|d0 [|d1 r]]; try discriminate.
  destruct (N.eqb_spec d0 42) as [->|]; [|discriminate].
  destruct (N.eqb_spec d1 47) as [->|]; [|discriminate]. cbn [andb].
  intros H. inversion H; subst s1 rest. exists ws.
  split; [congruence | split; [reflexivity | assumption]].
Qed.

Lemma ruleC_length t :
  length (ruleC t) <= length t /\
  (search ruleC_pattern t <> None -> length (ruleC t) < length t).
Proof.
  apply sub_shrinks. intros s mk rest H.
  rewrite match_here_C in H.
  destruct (c_here s) as [[s1 r]|] eqn:E; [|discriminate].
  inversion H; subst. destruct (c_here_spec _ _ _ E) as (ws & Hs & Hs1 & _).
  unfold ruleC_repl. rewrite expand_group1.
  rewrite length_firstn. rewrite Hs, Hs1. cbn. rewrite !length_app. cbn. lia.
Qed.

Lemma no_match_search ops t : matches ops t = false <-> search ops t = None.
Proof.
  unfold matches. destruct (search ops t); split; congruence.
Qed.

(** X1: the rule table leaves a text as it is exactly when none of the
    three patterns matches it; so a file is reported (or fixed) exactly
    when at least one pattern matches its text. *)
Theorem changed_iff_some_pattern_matches (t : text) :
  apply_fixes t = t <->
  matches ruleA_pattern t = false /\
  matches ruleB_pattern t = false /\
  matches ruleC_pattern t = false.
Proof.
  rewrite !no_match_search, apply_fixes_eq. split.
  - intros E.
    pose proof (ruleA_length t) as [HA1 HA2].
    pose proof (ruleB_length (ruleA t)) as HB.
    pose proof (ruleC_length (ruleB (ruleA t))) as [HC1 HC2].
    assert (Hlen : length (ruleC (ruleB (ruleA t))) = length t) by now rewrite E.
    assert (SA : search ruleA_pattern t = None).
    { destruct (search ruleA_pattern t) eqn:S; [|reflexivity].
      assert (length (ruleA t) < length t) by (apply HA2; congruence). lia. }
    assert (EA : ruleA t = t) by now apply sub_no_match.
    rewrite EA in *.
    assert (SC : search ruleC_pattern (ruleB t) = None).
    { destruct (search ruleC_pattern (ruleB t)) eqn:S; [|reflexivity].
      assert (length (ruleC (ruleB t)) < length (ruleB t))
        by (apply HC2; congruence). lia. }
    assert (EC : ruleC (ruleB t) = ruleB t) by now apply sub_no_match.
    rewrite EC in E.
    assert (SB : search ruleB_pattern t = None).
    { destruct (search ruleB_pattern t) eqn:S; [|reflexivity].
      exfalso. apply (ruleB_changes t); [congruence | assumption]. }
    rewrite E in SC. now repeat split.
  - intros (SA & SB & SC). unfold ruleA, ruleB, ruleC.
    rewrite (sub_no_match ruleA_pattern ruleA_repl t SA).
    rewrite (sub_no_match ruleB_pattern ruleB_repl t SB).
    now rewrite (sub_no_match ruleC_pattern ruleC_repl t SC).
Qed.

(** X2: the rule table never makes a text longer; Rules A and C only take
    characters out and Rule B keeps the length. *)
Theorem fixes_never_grow (t : text) :
  length (ruleA t) <= length t /\
  length (ruleB t) = length t /\
  length (ruleC t) <= length t /\
  length (apply_fixes t) <= length t.
Proof.
  pose proof (ruleA_length t) as [HA _].
  pose proof (ruleC_length t) as [HC _].
  pose proof (ruleB_length (ruleA t)) as HB.
  pose proof (ruleC_length (ruleB (ruleA t))) as [HC' _].
  rewrite apply_fixes_eq. repeat split; try assumption; try apply ruleB_length.
  lia.
Qed.

Lemma slashed_pointwise p t r : slashed p t r -> Forall2 star_or_same t r.
Proof.
  induction 1; constructor; try assumption; [now left | now right].
Qed.

(** X3: Rule B changes nothing but asterisks, which it turns into
    slashes: position by position the output is the input, or a [/] where
    the input has a [*]. *)
Theorem ruleB_only_turns_stars_into_slashes (t : text) :
  Forall2 star_or_same t (ruleB t).
Proof. apply (slashed_pointwise 0%N), ruleB_slashed. Qed.

Lemma a_tail_here (ws e : text) :
  forallb is_space ws = true -> at_end e = true ->
  a_tail (ws ++ 42%N :: 47%N :: e) = Some e.
Proof.
  intros Hws He. unfold a_tail.
  rewrite drop_while_app by (assumption || reflexivity).
  cbn. now rewrite He.
Qed.

Lemma a_scan_here (g s1 e : text) :
  forallb (fun c => negb (c =? NL)%N) g = true ->
  a_tail s1 = Some e ->
  a_scan (g ++ 59%N :: s1) <> None.
Proof.
  intros Hg Ht. induction g as [|c g IH]; cbn [app a_scan].
  - cbn. rewrite Ht. discriminate.
  - cbn [forallb] in Hg. apply andb_prop in Hg as [Hc Hg].
    destruct (if (c =? 59)%N then a_tail (g ++ 59%N :: s1) else None);
      [discriminate|].
    apply negb_true_iff in Hc. rewrite Hc. now apply IH.
Qed.

Lemma space_run_unique (a b x y : text) :
  forallb is_space a = true -> forallb is_space b = true ->
  a ++ 59%N :: x = b ++ 59%N :: y -> a = b /\ x = y.
Proof.
  revert b; induction a as [|c a IH]; intros [|d b] Ha Hb H; cbn in *.
  - inversion H. now split.
  - inversion H; subst. discriminate.
  - inversion H; subst. discriminate.
  - inversion H; subst.
    apply andb_prop in Ha as [_ Ha]. apply andb_prop in Hb as [_ Hb].
    destruct (IH _ Ha Hb H2) as [-> ->]. now split.
Qed.

Lemma forallb_rev {A} (f : A -> bool) l :
  forallb f l = true -> forallb f (rev l) = true.
Proof.
  rewrite !forallb_forall. intros H x Hx. apply H. now apply in_rev.
Qed.

Lemma stray_tail_unique (y ws e z ws' e' : text) :
  forallb is_space ws = true -> forallb is_space ws' = true ->
  at_end e = true -> at_end e' = true ->
  y ++ 59%N :: ws ++ 42%N :: 47%N :: e =
    z ++ 59%N :: ws' ++ 42%N :: 47%N :: e' ->
  y = z /\ e = e'.
Proof.
  intros Hws Hws' He He' H.
  apply (f_equal (@rev N)) in H.
  rewrite !rev_app_distr in H. cbn [rev] in H.
  rewrite !rev_app_distr in H. cbn [rev] in H.
  rewrite <- !app_assoc in H. cbn [app] in H.
  apply forallb_rev in Hws. apply forallb_rev in Hws'.
  destruct (at_end_cases _ He) as [->| ->];
    destruct (at_end_cases _ He') as [->| ->]; cbn in H;
    inversion H as [H1]; clear H.
  - destruct (space_run_unique _ _ _ _ Hws Hws' H1) as [_ Hr].
    apply (f_equal (@rev N)) in Hr. rewrite !rev_involutive in Hr. now split.
  - destruct (space_run_unique _ _ _ _ Hws Hws' H1) as [_ Hr].
    apply (f_equal (@rev N)) in Hr. rewrite !rev_involutive in Hr. now split.
Qed.

Lemma search_A_cons_kw (r : text) :
  search ruleA_pattern (import_kw ++ r) =
  match a_here (import_kw ++ r) with
  | Some (s1, e) => Some ([(1, s1); (0, import_kw ++ r)], e)
  | None => search ruleA_pattern (tl (import_kw ++ r))
  end.
Proof. rewrite import_kw_chars. cbn [app tl]. apply search_A_cons. Qed.

(** X4: Rule A fires whenever the text ends with an import declaration
    (on one line), white space and a closer, with at most one newline
    after it; the white space may hold newlines, so the closer may stand
    on a later line.  The declaration stays, white space and closer go. *)
Theorem ruleA_fires_at_end_of_text (pre g ws e : text) :
  forallb (fun c => negb (c =? NL)%N) g = true ->
  forallb is_space ws = true ->
  at_end e = true ->
  ruleA (pre ++ import_kw ++ g ++ cp ";" ++ ws ++ closer ++ e) =
    pre ++ import_kw ++ g ++ cp ";" ++ e.
Proof.
  intros Hg Hws He.
  change (cp ";") with [59%N]. rewrite closer_chars. cbn [app].
  destruct (ruleA_shape (pre ++ import_kw ++ g ++ 59%N :: ws ++ 42%N :: 47%N :: e))
    as [Hn|(y & ws' & e' & Ht & Hr & Hws' & He')].
  - exfalso. revert Hn. apply search_app.
    rewrite search_A_cons_kw.
    unfold a_here. fold import_kw. rewrite strip_prefix_self.
    pose proof (a_scan_here g _ e Hg (a_tail_here ws e Hws He)) as Hs.
    destruct (a_scan (g ++ 59%N :: ws ++ 42%N :: 47%N :: e)) as [[s1 e0]|];
      [discriminate | congruence].
  - rewrite Hr.
    rewrite !app_assoc in Ht. rewrite <- (app_assoc pre import_kw g) in Ht.
    destruct (stray_tail_unique _ _ _ _ _ _ Hws Hws' He He' Ht) as [<- <-].
    now rewrite <- !app_assoc.
Qed.

Lemma ruleA_fires_at_end_of_text_witness :
  let ws := [32%N; NL; NL; 32%N] in
  forallb (fun c => negb (c =? NL)%N) (cp "url(a.css)") = true /\
  forallb is_space ws = true /\
  ruleA (cp "body{}" ++ import_kw ++ cp "url(a.css)" ++ cp ";" ++ ws ++
         closer ++ [NL]) =
    cp "body{}" ++ import_kw ++ cp "url(a.css)" ++ cp ";" ++ [NL].
Proof.
  intros ws. split; [reflexivity|]. split; [reflexivity|].
  apply (ruleA_fires_at_end_of_text (cp "body{}") (cp "url(a.css)") ws [NL]);
    reflexivity.
Defined.

Lemma match_has_star ops (t : text) :
  (forall (s : text) r, match_here ops s false = Some r -> In 42%N s) ->
  ~ In 42%N t -> search ops t = None.
Proof.
  intros Hm Hn. destruct (search ops t) as [r|] eqn:E; [|reflexivity].
  exfalso. destruct (search_some _ _ E) as (pre & s' & -> & H).
  apply Hn, in_or_app. right. eapply Hm; eassumption.
Qed.

(** X5: every pattern needs an asterisk: a text without [*] is given back
    unchanged by the rule table. *)
Theorem no_asterisk_no_change (t : text) :
  ~ In 42%N t -> apply_fixes t = t.
Proof.
  intros Hn. rewrite apply_fixes_eq. unfold ruleA, ruleB, ruleC.
  rewrite (sub_no_match ruleA_pattern ruleA_repl t).
  rewrite (sub_no_match ruleB_pattern ruleB_repl t).
  rewrite (sub_no_match ruleC_pattern ruleC_repl t). reflexivity.
  - apply match_has_star; [|assumption]. intros s r H.
    rewrite match_here_C in H.
    destruct (c_here s) as [[s1 rest]|] eqn:E; [|discriminate].
    destruct (c_here_spec _ _ _ E) as (ws & -> & _). now left.
  - apply match_has_star; [|assumption]. intros s r H.
    rewrite match_here_B in H.
    destruct (strip_prefix occ s) as [r'|] eqn:E; [|discriminate].
    apply strip_prefix_app in E. subst s. apply in_or_app. left.
    rewrite occ_chars. cbn. auto 10.
  - apply match_has_star; [|assumption]. intros s r H.
    rewrite match_here_A in H.
    destruct (a_here s) as [[s1 e]|] eqn:E; [|discriminate].
    destruct (a_here_spec _ E) as (g & -> & Ht).
    destruct (a_tail_spec _ Ht) as (ws & -> & _).
    apply in_or_app. right. apply in_or_app. right. right.
    apply in_or_app. right. now left.
Qed.

Lemma no_asterisk_no_change_witness :
  ~ In 42%N (cp "a { color: red; } @import x; http://y") /\
  apply_fixes (cp "a { color: red; } @import x; http://y") =
    cp "a { color: red; } @import x; http://y".
Proof.
  assert (H : ~ In 42%N (cp "a { color: red; } @import x; http://y")).
  { cbn. intuition discriminate. }
  split; [exact H | exact (no_asterisk_no_change _ H)].
Defined.

(** * Further properties of the run *)

Section RunReport.
Variable decode : list Byte.byte -> text.
Variable encode : text -> list Byte.byte.

Lemma needs_fix_true d p :
needs_fix decode d p = true ->
f_read_fault (d p) = None /\
apply_fixes (decode (f_bytes (d p))) <> decode (f_bytes (d p)).
Proof.
unfold needs_fix, readable. destruct (f_read_fault (d p)); [discriminate|].
cbn. intros H. split; [reflexivity|]. intros E.
rewrite E, text_eqb_refl in H. discriminate.
Qed.

Lemma needs_fix_false d p :
f_read_fault (d p) = None -> needs_fix decode d p = false ->
apply_fixes (decode (f_bytes (d p))) = decode (f_bytes (d p)).
Proof.
unfold needs_fix, readable. intros -> H. cbn in H.
apply negb_false_iff in H. now apply text_eqb_eq.
Qed.

Lemma needs_fix_unreadable d p e :
f_read_fault (d p) = Some e -> needs_fix decode d p = false.
Proof. unfold needs_fix, readable. now intros ->. Qed.

(** One file in scan mode. *)
Lemma scan_step p st :
process_file decode encode false p st =
(mkState (st_disk st)
         (console st ++ scan_report decode (st_disk st) p)
         (trace st ++ [EvRead p])
         (files_processed st + (if readable (st_disk st) p then 1 else 0))
         (errors_found st + (if needs_fix decode (st_disk st) p then 1 else 0)),
 Ok tt).
Proof.
unfold scan_report.
destruct (f_read_fault (st_disk st p)) as [e|] eqn:Hr.
- rewrite (@process_file_read_fault decode encode false p st e Hr).
  rewrite (needs_fix_unreadable _ _ _ Hr). unfold readable. rewrite Hr.
  now rewrite !Nat.add_0_r.
- destruct (needs_fix decode (st_disk st) p) eqn:Hn.
  + destruct (needs_fix_true _ _ Hn) as [_ Hne].
    rewrite (@process_file_found decode encode false p st eq_refl Hr Hne).
    unfold readable. now rewrite Hr.
  + pose proof (needs_fix_false _ _ Hr Hn) as Hc.
    rewrite (@process_file_clean decode encode false p st Hr Hc).
    unfold readable. now rewrite Hr, app_nil_r, Nat.add_0_r.
Qed.

(** One file in fix mode. *)
Lemma fix_step p st :
exists d',
  process_file decode encode true p st =
  (mkState d'
           (console st ++ fix_report decode (st_disk st) p)
           (trace st ++ fix_events decode (st_disk st) p)
           (files_processed st +
            (if fix_counted decode (st_disk st) p then 1 else 0))
           (errors_found st +
            (if needs_fix decode (st_disk st) p then 1 else 0)),
   Ok tt) /\
  (forall q, q <> p -> d' q = st_disk st q) /\
  (needs_fix decode (st_disk st) p = false -> d' = st_disk st) /\
  f_bytes (d' p) = fixed_bytes decode encode (st_disk st) p /\
  f_read_fault (d' p) = f_read_fault (st_disk st p) /\
  f_write_fault (d' p) = f_write_fault (st_disk st p).
Proof.
unfold fix_report, fix_events, fixed_bytes, fix_counted.
assert (Hset : forall b q, q <> p -> disk_set (st_disk st) p b q = st_disk st q).
{ intros b q Hq. unfold disk_set. destruct (path_eqb q p) eqn:E; [|reflexivity].
  apply path_eqb_eq in E. contradiction. }
destruct (f_read_fault (st_disk st p)) as [e|] eqn:Hr.
- exists (st_disk st).
  rewrite (@process_file_read_fault decode encode true p st e Hr).
  rewrite (needs_fix_unreadable _ _ _ Hr). unfold readable. rewrite Hr.
  cbn. rewrite !Nat.add_0_r. repeat split; auto.
- destruct (needs_fix decode (st_disk st) p) eqn:Hn.
  + destruct (needs_fix_true _ _ Hn) as [_ Hne].
    unfold readable. rewrite Hr. cbn [andb negb].
    destruct (f_write_fault (st_disk st p)) as [[e partial]|] eqn:Hw.
    * eexists. split;
        [rewrite (@process_file_write_fault decode encode true p st e partial
                    eq_refl Hr Hne Hw); cbn; now rewrite Nat.add_0_r|].
      split; [intros q Hq; now apply Hset|].
      split; [discriminate|].
      rewrite disk_set_same. cbn. repeat split; congruence.
    * eexists. split;
        [rewrite (@process_file_fixed decode encode true p st eq_refl Hr Hne Hw);
         reflexivity|].
      split; [intros q Hq; now apply Hset|].
      split; [discriminate|].
      rewrite disk_set_same. cbn. repeat split; congruence.
  + pose proof (needs_fix_false _ _ Hr Hn) as Hc.
    exists (st_disk st).
    rewrite (@process_file_clean decode encode true p st Hr Hc).
    unfold readable. rewrite Hr. cbn. rewrite app_nil_r, Nat.add_0_r.
    repeat split; auto.
Qed.

(** The scan of a list of files. *)
Lemma scan_paths ps : forall st,
fst (for_paths decode encode false ps st) =
mkState (st_disk st)
        (console st ++ flat_map (scan_report decode (st_disk st)) ps)
        (trace st ++ map EvRead ps)
        (files_processed st + count (readable (st_disk st)) ps)
        (errors_found st + count (needs_fix decode (st_disk st)) ps).
Proof.
unfold count. induction ps as [|p ps IH]; intros st.
- cbn. rewrite !app_nil_r, !Nat.add_0_r. now destruct st.
- rewrite for_paths_cons, scan_step. cbn [fst]. rewrite IH. cbn.
  rewrite <- !app_assoc. cbn.
  destruct (readable (st_disk st) p), (needs_fix decode (st_disk st) p);
    cbn; f_equal; lia.
Qed.

Lemma flat_map_in_ext {A B} (f g : A -> list B) l :
(forall x, In x l -> f x = g x) -> flat_map f l = flat_map g l.
Proof.
induction l as [|x l IH]; intros H; [reflexivity|].
cbn. rewrite (H x) by now left. rewrite IH; [reflexivity|].
intros y Hy. apply H. now right.
Qed.

Lemma count_in_ext {A} (f g : A -> bool) l :
(forall x, In x l -> f x = g x) -> count f l = count g l.
Proof. intros H. unfold count. now rewrite (filter_ext_in _ _ _ H). Qed.

(** What is reported on a file only depends on that file. *)
Lemma report_local (d1 d2 : disk) p :
d1 p = d2 p ->
needs_fix decode d1 p = needs_fix decode d2 p /\
fix_report decode d1 p = fix_report decode d2 p /\
fix_events decode d1 p = fix_events decode d2 p /\
fix_counted decode d1 p = fix_counted decode d2 p /\
fixed_bytes decode encode d1 p = fixed_bytes decode encode d2 p.
Proof.
intros H.
unfold fix_report, fix_events, fix_counted, fixed_bytes, needs_fix, readable.
rewrite H. repeat split; reflexivity.
Qed.

(** A fix run over a list of files that holds none twice. *)
Lemma fix_paths ps : NoDup ps -> forall st,
console (fst (for_paths decode encode true ps st)) =
  console st ++ flat_map (fix_report decode (st_disk st)) ps /\
trace (fst (for_paths decode encode true ps st)) =
  trace st ++ flat_map (fix_events decode (st_disk st)) ps /\
files_processed (fst (for_paths decode encode true ps st)) =
  files_processed st + count (fix_counted decode (st_disk st)) ps /\
errors_found (fst (for_paths decode encode true ps st)) =
  errors_found st + count (needs_fix decode (st_disk st)) ps /\
(forall q, In q ps ->
   f_bytes (st_disk (fst (for_paths decode encode true ps st)) q) =
   fixed_bytes decode encode (st_disk st) q) /\
(forall q, ~ In q ps ->
   st_disk (fst (for_paths decode encode true ps st)) q = st_disk st q).
Proof.
induction 1 as [|p ps Hp Hnd IH]; intros st.
- cbn. rewrite !app_nil_r, !Nat.add_0_r. repeat split; auto; contradiction.
- rewrite for_paths_cons.
  destruct (fix_step p st) as (d' & E & Hother & _ & Hb & _).
  rewrite E. cbn [fst].
  destruct (IH (mkState d'
                  (console st ++ fix_report decode (st_disk st) p)
                  (trace st ++ fix_events decode (st_disk st) p)
                  (files_processed st +
                   (if fix_counted decode (st_disk st) p then 1 else 0))
                  (errors_found st +
                   (if needs_fix decode (st_disk st) p then 1 else 0))))
    as (Hc & Ht & Hf & He & Hin & Hout).
  cbn [st_disk console trace files_processed errors_found] in *.
  assert (Hsame : forall q, In q ps -> d' q = st_disk st q).
  { intros q Hq. apply Hother. intros ->. contradiction. }
  assert (Hloc : forall q, In q ps ->
             needs_fix decode d' q = needs_fix decode (st_disk st) q /\
             fix_report decode d' q = fix_report decode (st_disk st) q /\
             fix_events decode d' q = fix_events decode (st_disk st) q /\
             fix_counted decode d' q = fix_counted decode (st_disk st) q /\
             fixed_bytes decode encode d' q =
               fixed_bytes decode encode (st_disk st) q).
  { intros q Hq. apply report_local. now apply Hsame. }
  rewrite Hc, Ht, Hf, He.
  rewrite (flat_map_in_ext (fix_report decode d')
             (fix_report decode (st_disk st)) ps)
    by (intros q Hq; apply (Hloc q Hq)).
  rewrite (flat_map_in_ext (fix_events decode d')
             (fix_events decode (st_disk st)) ps)
    by (intros q Hq; apply (Hloc q Hq)).
  rewrite (count_in_ext (fix_counted decode d')
             (fix_counted decode (st_disk st)) ps)
    by (intros q Hq; apply (Hloc q Hq)).
  rewrite (count_in_ext (needs_fix decode d')
             (needs_fix decode (st_disk st)) ps)
    by (intros q Hq; apply (Hloc q Hq)).
  unfold count. cbn [flat_map filter].
  split; [now rewrite <- app_assoc|].
  split; [now rewrite <- app_assoc|].
  split; [destruct (fix_counted decode (st_disk st) p); cbn; lia|].
  split; [destruct (needs_fix decode (st_disk st) p); cbn; lia|].
  split.
  + intros q [<-|Hq].
    * rewrite (Hout p Hp). exact Hb.
    * rewrite (Hin q Hq). apply (Hloc q Hq).
  + intros q Hq. rewrite Hout by (intros H; apply Hq; now right).
    apply Hother. intros ->. apply Hq. now left.
Qed.



End RunReport.

Lemma start_fields st :
  st_disk (start st) = st_disk st /\ console (start st) = console st /\
  trace (start st) = trace st /\ files_processed (start st) = 0 /\
  errors_found (start st) = 0.
Proof. now repeat split. Qed.


Lemma summary_no_notice fix_mode n l :
  In l (summary_lines fix_mode n) -> is_notice l = false.
Proof.
  unfold summary_lines. destruct fix_mode; [|destruct (0 <? n)]; cbn;
    intros H; repeat (destruct H as [<-|H]; [reflexivity|]); contradiction.
Qed.



Lemma found_in_scan decode d ps p :
  In (Found p) (flat_map (scan_report decode d) ps) <->
  In p ps /\ needs_fix decode d p = true.
Proof.
  rewrite in_flat_map. split.
  - intros (q & Hq & Hin). unfold scan_report in Hin.
    destruct (f_read_fault (d q)); [destruct Hin as [H|[]]; discriminate|].
    destruct (needs_fix decode d q) eqn:E; [|contradiction].
    destruct Hin as [H|[]]. inversion H; subst. now split.
  - intros [Hp Hn]. exists p. split; [assumption|].
    unfold scan_report. destruct (needs_fix_true _ _ _ Hn) as [-> _].
    rewrite Hn. now left.
Qed.

Lemma fixed_in_fix decode d ps p :
  In (Fixed p) (flat_map (fix_report decode d) ps) <->
  In p ps /\ needs_fix decode d p = true.
Proof.
  rewrite in_flat_map. split.
  - intros (q & Hq & Hin). unfold fix_report in Hin.
    destruct (f_read_fault (d q)); [destruct Hin as [H|[]]; discriminate|].
    destruct (needs_fix decode d q) eqn:E; [|contradiction].
    destruct (f_write_fault (d q)) as [[e partial]|].
    + destruct Hin as [H|[H|[]]]; [|discriminate].
      inversion H; subst. now split.
    + destruct Hin as [H|[]]. inversion H; subst. now split.
  - intros [Hp Hn]. exists p. split; [assumption|].
    unfold fix_report. destruct (needs_fix_true _ _ _ Hn) as [-> _].
    rewrite Hn. destruct (f_write_fault (d p)) as [[e partial]|]; now left.
Qed.



Lemma demo_targets_nodup : NoDup (targets [] demo_tree).
Proof.
  cbn. repeat constructor; cbn; intuition discriminate.
Qed.


(** X8: a scan predicts a fix run: when no file is reached twice, the
    two runs on the same disk end with the same [errors_found], and a
    file is announced by [Found] in the scan exactly when it is announced
    by [Fixed] in the fix run. *)
Theorem scan_predicts_fix decode encode root t st :
  NoDup (targets root t) ->
  let scanned := fst (process_css_files decode encode false root t st) in
  let fixed := fst (process_css_files decode encode true root t st) in
  errors_found scanned = errors_found fixed /\
  forall p, In (Found p) (new_lines st scanned) <->
            In (Fixed p) (new_lines st fixed).
Proof.
  intros Hnd scanned fixed. subst scanned fixed.
  rewrite !process_css_files_eq. unfold walked. rewrite scan_paths.
  destruct (fix_paths decode encode (targets root t) Hnd (start st))
    as (Hc & _ & _ & He & _).
  cbn [fst st_disk console trace files_processed errors_found] in *.
  rewrite He. split; [reflexivity|]. intros p.
  rewrite Hc. cbn [console start].
  rewrite (new_lines_app st _
             (flat_map (scan_report decode (st_disk st)) (targets root t) ++
              summary_lines false
                (0 + count (needs_fix decode (st_disk st)) (targets root t))))
    by (cbn; now rewrite <- app_assoc).
  rewrite (new_lines_app st _
             (flat_map (fix_report decode (st_disk st)) (targets root t) ++
              summary_lines true
                (0 + count (needs_fix decode (st_disk st)) (targets root t))))
    by (cbn; now rewrite <- app_assoc).
  rewrite !in_app_iff, found_in_scan, fixed_in_fix.
  split; intros [H|H]; auto; apply summary_no_notice in H; discriminate.
Qed.

Lemma scan_predicts_fix_witness :
  let scanned := fst (process_css_files ascii_decode ascii_encode false []
                                        demo_tree demo_state) in
  let fixed := fst (process_css_files ascii_decode ascii_encode true []
                                      demo_tree demo_state) in
  NoDup (targets [] demo_tree) /\
  errors_found scanned = errors_found fixed /\
  In (Fixed ["a.css"%string]) (new_lines demo_state fixed).
Proof.
  intros scanned fixed. split; [exact demo_targets_nodup|].
  destruct (scan_predicts_fix ascii_decode ascii_encode [] demo_tree demo_state
              demo_targets_nodup) as [He Hiff].
  split; [exact He|].
  apply (proj1 (Hiff ["a.css"%string])). vm_compute. auto.
Defined.





(** ** Which files are reached, again *)

Lemma flat_dirs_pruned_from body dirs removed p :
  In p (flat_dirs_pruned body dirs removed) ->
  exists name sub, In (name, sub) dirs /\ In p (body name sub).
Proof.
  revert removed; induction dirs as [|[name sub] dirs IH]; intros removed H;
    [contradiction|].
  cbn [flat_dirs_pruned] in H.
  destruct (negb removed && String.eqb name nm).
  - destruct (IH _ H) as (n & s & H1 & H2). exists n, s. split; [now right|auto].
  - apply in_app_or in H as [H|H].
    + exists name, sub. split; [now left | assumption].
    + destruct (IH _ H) as (n & s & H1 & H2). exists n, s.
      split; [now right | auto].
Qed.





Lemma targets_under t : forall root p,
  In p (targets root t) -> exists rel, p = root ++ rel /\ rel <> [].
Proof.
  induction t as [dirs files IH] using tree_ind. intros root p Hin.
  cbn [targets] in Hin. apply in_app_or in Hin as [Hin|Hin].
  - apply in_map_iff in Hin as (file & <- & _). exists [file].
    split; [reflexivity | discriminate].
  - apply flat_dirs_pruned_from in Hin as (name & sub & Hd & Hp).
    rewrite Forall_forall in IH.
    destruct (IH (name, sub) Hd (join root name) p Hp) as (rel & -> & _).
    exists (name :: rel). unfold join. rewrite <- app_assoc.
    split; [reflexivity | discriminate].
Qed.

Lemma NoDup_map_inj {A B} (f : A -> B) l :
  (forall x y, f x = f y -> x = y) -> NoDup l -> NoDup (map f l).
Proof.
  intros Hf. induction 1 as [|x l Hx Hnd IH]; cbn; constructor; [|assumption].
  intros Hin. apply in_map_iff in Hin as (y & E & Hy).
  apply Hf in E. subst y. contradiction.
Qed.

Lemma join_inj root a b : join root a = join root b -> a = b.
Proof.
  unfold join. intros H. apply app_inv_head in H. now inversion H.
Qed.

Lemma flat_dirs_pruned_nodup root dirs :
  NoDup (map fst dirs) ->
  Forall (fun d => forall r, NoDup (targets r (snd d))) dirs ->
  forall removed,
    NoDup (flat_dirs_pruned (fun name sub => targets (join root name) sub)
                            dirs removed).
Proof.
  induction dirs as [|[name sub] dirs IH]; intros Hnd Hall removed;
    [constructor|].
  cbn [map fst] in Hnd. inversion Hnd as [|? ? Hnotin Hnd']; subst.
  inversion Hall as [|? ? Hsub Hrest]; subst. cbn [snd] in Hsub.
  cbn [flat_dirs_pruned].
  destruct (negb removed && String.eqb name nm); [now apply IH|].
  apply NoDup_app; [apply Hsub | now apply IH |].
  intros p Hp Hq.
  apply flat_dirs_pruned_from in Hq as (n & s & Hd & Hq).
  destruct (targets_under _ _ _ Hp) as (rel & -> & _).
  destruct (targets_under _ _ _ Hq) as (rel' & E & _).
  unfold join in E. rewrite <- !app_assoc in E. apply app_inv_head in E.
  inversion E; subst n. apply Hnotin.
  apply in_map_iff. exists (name, s). now split.
Qed.

Lemma all_dirs_Forall (P : tree -> Prop) dirs :
  all_dirs P dirs -> Forall (fun d => P (snd d)) dirs.
Proof.
  induction dirs as [|[n s] dirs IH]; intros H; constructor.
  - apply H.
  - apply IH, H.
Qed.

Lemma targets_nodup t : wf_names t -> forall root, NoDup (targets root t).
Proof.
  induction t as [dirs files IH] using tree_ind.
  intros (Hd & Hf & Hwf) root. cbn [targets].
  apply NoDup_app.
  - apply NoDup_map_inj; [apply join_inj | now apply NoDup_filter].
  - apply flat_dirs_pruned_nodup; [assumption|].
    apply all_dirs_Forall in Hwf. rewrite Forall_forall in *.
    intros d Hin. apply (IH d Hin). now apply Hwf.
  - intros p Hp Hq.
    apply in_map_iff in Hp as (file & <- & _).
    apply flat_dirs_pruned_from in Hq as (n & s & _ & Hq).
    destruct (targets_under _ _ _ Hq) as (rel & E & Hrel).
    unfold join in E. rewrite <- app_assoc in E. apply app_inv_head in E.
    inversion E; subst. now apply Hrel.
Qed.

Lemma fix_events_nodup decode d ps :
  NoDup ps -> NoDup (flat_map (fix_events decode d) ps).
Proof.
  induction 1 as [|p ps Hp Hnd IH]; [constructor|].
  cbn [flat_map]. apply NoDup_app; [| assumption |].
  - unfold fix_events. destruct (needs_fix decode d p);
      repeat constructor; cbn; intuition discriminate.
  - intros ev Hev Hin. apply in_flat_map in Hin as (q & Hq & Hin).
    assert (event_path ev = p).
    { unfold fix_events in Hev. destruct (needs_fix decode d p);
        cbn in Hev; intuition (subst; reflexivity). }
    assert (event_path ev = q).
    { unfold fix_events in Hin. destruct (needs_fix decode d q);
        cbn in Hin; intuition (subst; reflexivity). }
    congruence.
Qed.

(** X13: when no listing holds the same name twice, no file is reached
    twice, and a run opens no file twice for reading and none twice for
    writing. *)
Theorem no_file_is_opened_twice decode encode fix_mode root t st :
  wf_names t ->
  NoDup (targets root t) /\
  NoDup (new_events st
           (fst (process_css_files decode encode fix_mode root t st))).
Proof.
  intros Hwf. pose proof (targets_nodup t Hwf root) as Hnd.
  split; [exact Hnd|].
  rewrite process_css_files_eq. unfold walked. destruct fix_mode.
  - destruct (fix_paths decode encode (targets root t) Hnd (start st))
      as (_ & Ht & _).
    rewrite (new_events_app st _
               (flat_map (fix_events decode (st_disk (start st)))
                         (targets root t)));
      [now apply fix_events_nodup | exact Ht].
  - rewrite scan_paths.
    rewrite (new_events_app st _ (map EvRead (targets root t)));
      [|reflexivity].
    apply NoDup_map_inj; [|exact Hnd]. intros x y H. now inversion H.
Qed.

Lemma demo_tree_wf_names : wf_names demo_tree.
Proof.
  cbn. repeat split; repeat constructor; cbn; intuition discriminate.
Qed.

Lemma no_file_is_opened_twice_witness :
  wf_names demo_tree /\
  NoDup (new_events demo_state
           (fst (process_css_files ascii_decode ascii_encode true []
                                   demo_tree demo_state))).
Proof.
  split; [exact demo_tree_wf_names|].
  apply (no_file_is_opened_twice ascii_decode ascii_encode true [] demo_tree
           demo_state demo_tree_wf_names).
Defined.

(** * The entry block *)

Import Script.





(** * The file name filter *)

Lemma substring_skip pre x m :
  substring (String.length pre) m (pre ++ x)%string = substring 0 m x.
Proof. induction pre as [|c pre IH]; [reflexivity | exact IH]. Qed.

Lemma substring_whole x : substring 0 (String.length x) x = x.
Proof. induction x as [|c x IH]; [reflexivity | cbn; now rewrite IH]. Qed.

Lemma substring_split s : forall k,
  k <= String.length s ->
  s = (substring 0 k s ++ substring k (String.length s - k) s)%string.
Proof.
  induction s as [|c s IH]; intros [|k] Hk; cbn in *; try lia.
  - reflexivity.
  - now rewrite substring_whole.
  - rewrite <- IH by lia. reflexivity.
Qed.

Lemma string_length_app a b :
  String.length (a ++ b)%string = String.length a + String.length b.
Proof. induction a as [|c a IH]; [reflexivity | cbn; now rewrite IH]. Qed.

(** X16: the filter of the walk takes a file exactly when its name is
    some string, possibly empty, followed by the suffix, letter case
    included. *)
Theorem endswith_iff_suffix (s suffix : string) :
  endswith s suffix = true <-> exists pre, s = (pre ++ suffix)%string.
Proof.
  unfold endswith. split.
  - intros H. apply andb_prop in H as [Hle Heq].
    apply Nat.leb_le in Hle. apply String.eqb_eq in Heq.
    exists (substring 0 (String.length s - String.length suffix) s).
    rewrite <- Heq at 2.
    rewrite (substring_split s (String.length s - String.length suffix))
      at 1 by lia.
    do 2 f_equal. lia.
  - intros [pre ->]. rewrite string_length_app.
    replace (String.length pre + String.length suffix - String.length suffix)
      with (String.length pre) by lia.
    rewrite substring_skip, substring_whole, String.eqb_refl, andb_true_r.
    apply Nat.leb_le. lia.
Qed.

(** * More on the rules *)



Lemma ruleC_pair (q : text) : ruleC (closer ++ closer ++ q) = closer ++ ruleC q.
Proof. apply (ruleC_collapse [] q). reflexivity. Qed.

Lemma ruleC_closers n : ruleC (closers n) = closers ((n + 1) / 2).
Proof.
  enough (H : ruleC (closers n) = closers ((n + 1) / 2) /\
              ruleC (closers (S n)) = closers ((S n + 1) / 2)) by apply H.
  induction n as [|n [IH1 IH2]]; [split; reflexivity|].
  split; [exact IH2|].
  replace (S (S n) + 1) with (n + 1 + 1 * 2) by lia.
  rewrite Nat.div_add by lia. rewrite (Nat.add_1_r ((n + 1) / 2)).
  cbn [closers]. rewrite ruleC_pair, IH1. reflexivity.
Qed.

Lemma closers_chars n c : In c (closers n) -> c = 42%N \/ c = 47%N.
Proof.
  induction n as [|n IH]; [intros []|].
  cbn [closers]. rewrite closer_chars. cbn [app].
  intros [<-|[<-|Hc]]; auto.
Qed.

(** X18: of [n] closers in a row one pass of Rule C keeps every other
    one: [n] closers become half as many, rounded up.  So a run of
    closers needs several fix runs to come down to one. *)
Theorem ruleC_halves_a_run_of_closers (n : nat) :
  ruleC (closers n) = closers ((n + 1) / 2) /\
  apply_fixes (closers n) = closers ((n + 1) / 2).
Proof.
  pose proof (ruleC_closers n) as H.
  split; [exact H|].
  rewrite apply_fixes_eq.
  assert (EA : ruleA (closers n) = closers n).
  { unfold ruleA. apply sub_no_match, search_A_no_at.
    intros Hc. apply closers_chars in Hc as [Hc|Hc]; discriminate. }
  assert (EB : ruleB (closers n) = closers n).
  { unfold ruleB. apply sub_no_match, search_B_no_h.
    intros Hc. apply closers_chars in Hc as [Hc|Hc]; discriminate. }
  now rewrite EA, EB.
Qed.

(** X19: when the walk reaches no [.css] file (an empty or missing start
    directory, or one without such files), the run opens nothing, both
    counters are zero and only the summary is printed: [No common CSS
    errors found] for a scan, [Fixed 0 file(s)] for a fix run. *)
Theorem nothing_to_scan decode encode fix_mode root t st :
  targets root t = [] ->
  process_css_files decode encode fix_mode root t st =
  (mkState (st_disk st)
           (console st ++
            (if fix_mode then [SummaryFixed 0] else [SummaryClean]))
           (trace st) 0 0, Ok PyNone).
Proof.
  intros H. rewrite process_css_files_eq. unfold walked. rewrite H.
  cbn. now destruct fix_mode.
Qed.

Lemma nothing_to_scan_witness :
  targets ["web"%string] (Dir [(nm, Dir [] ["x.css"%string])]
                              ["readme.md"%string]) = [] /\
  console (fst (process_css_files ascii_decode ascii_encode true
                  ["web"%string]
                  (Dir [(nm, Dir [] ["x.css"%string])] ["readme.md"%string])
                  demo_state)) = [SummaryFixed 0].
Proof.
  split; [reflexivity|].
  rewrite (nothing_to_scan ascii_decode ascii_encode true ["web"%string]
             (Dir [(nm, Dir [] ["x.css"%string])] ["readme.md"%string])
             demo_state eq_refl).
  reflexivity.
Defined.

Lemma flat_dirs_pruned_map root dirs :
  Forall (fun d => forall r,
              targets r (snd d) = map (app r) (targets [] (snd d))) dirs ->
  forall removed,
    flat_dirs_pruned (fun name sub => targets (join root name) sub) dirs removed =
    map (app root)
        (flat_dirs_pruned (fun name sub => targets (join [] name) sub)
                          dirs removed).
Proof.
  induction dirs as [|[name sub] dirs IH]; intros Hall removed; [reflexivity|].
  inversion Hall as [|? ? Hsub Hrest]; subst. cbn [snd] in Hsub.
  cbn [flat_dirs_pruned].
  destruct (negb removed && String.eqb name nm); [now apply IH|].
  rewrite map_app, <- (IH Hrest). f_equal.
  rewrite (Hsub (join root name)), (Hsub (join [] name)), map_map.
  apply map_ext. intros rel. unfold join. cbn. now rewrite <- app_assoc.
Qed.

(** X20: where the walk goes only depends on the names below the start
    directory: the files reached from any start path are those reached
    from the empty path, with the start path in front.  A start directory
    that is itself called [node_modules], or lies below one, is walked
    like any other. *)
Theorem start_path_does_not_matter (t : tree) (root : path) :
  targets root t = map (app root) (targets [] t).
Proof.
  revert root. induction t as [dirs files IH] using tree_ind. intros root.
  cbn [targets]. rewrite map_app, map_map.
  rewrite (flat_dirs_pruned_map root dirs IH). f_equal.
Qed.

Lemma ruleC_miss c t :
  c_here (c :: t) = None -> ruleC (c :: t) = c :: ruleC t.
Proof.
  intros H. unfold ruleC. apply sub_miss. now rewrite match_here_C, H.
Qed.

Lemma ruleC_hit s s1 rest :
  c_here s = Some (s1, rest) ->
  exists ws,
    s = 42%N :: 47%N :: ws ++ 42%N :: 47%N :: rest /\
    forallb is_space ws = true /\
    ruleC s = 42%N :: 47%N :: ws ++ ruleC rest.
Proof.
  intros H. destruct (c_here_spec _ _ _ H) as (ws & Hs & Hs1 & Hws).
  exists ws. subst s1. split; [assumption|]. split; [assumption|].
  rewrite Hs. apply (ruleC_collapse ws rest Hws).
Qed.

Lemma search_none_suffix ops (pre x : text) :
  search ops (pre ++ x) = None -> search ops x = None.
Proof.
  induction pre as [|c pre IH]; [auto|]. cbn [app]. intros H.
  apply search_none_cons in H as [_ H]. now apply IH.
Qed.

Lemma search_B_not_h c t :
  c <> 104%N -> search ruleB_pattern (c :: t) = search ruleB_pattern t.
Proof.
  intros H. apply search_B_skip. rewrite occ_chars. cbn [strip_prefix].
  apply N.eqb_neq in H. now rewrite H.
Qed.

Lemma search_B_spaces (ws x : text) :
  forallb is_space ws = true ->
  search ruleB_pattern (ws ++ x) = search ruleB_pattern x.
Proof.
  induction ws as [|w ws IH]; intros H; [reflexivity|].
  cbn in H. apply andb_prop in H as [Hw H]. cbn [app].
  rewrite search_B_not_h; [now apply IH|]. intros ->. discriminate.
Qed.

(** An occurrence of the broken prefix that reaches an asterisk ends
    there. *)
Lemma occ_ends_at_star (u y z : text) :
  strip_prefix occ (u ++ 42%N :: y) <> None ->
  strip_prefix occ (u ++ 42%N :: z) <> None.
Proof.
  rewrite occ_chars.
  destruct u as [|c1 [|c2 [|c3 [|c4 [|c5 [|c6 [|c7 u]]]]]]]; cbn;
    repeat match goal with
           | |- context [(?c =? ?k)%N] => destruct (c =? k)%N
           end; auto; discriminate.
Qed.

Lemma occ_through_ruleC (t : text) : forall u : text,
  strip_prefix occ (u ++ ruleC t) <> None ->
  strip_prefix occ (u ++ t) <> None.
Proof.
  induction t as [t IH] using text_len_ind. intros u.
  destruct t as [|c t]; [auto|].
  destruct (c_here (c :: t)) as [[s1 rest]|] eqn:E.
  - destruct (ruleC_hit _ _ _ E) as (ws & Hs & _ & Hr).
    rewrite Hr, Hs. apply occ_ends_at_star.
  - rewrite (ruleC_miss _ _ E).
    replace (u ++ c :: ruleC t) with ((u ++ [c]) ++ ruleC t)
      by now rewrite <- app_assoc.
    replace (u ++ c :: t) with ((u ++ [c]) ++ t) by now rewrite <- app_assoc.
    apply IH. cbn. lia.
Qed.

Lemma ruleC_keeps_no_occ (s : text) :
  search ruleB_pattern s = None -> search ruleB_pattern (ruleC s) = None.
Proof.
  induction s as [s IH] using text_len_ind. intros Hs.
  destruct s as [|c t]; [reflexivity|].
  destruct (c_here (c :: t)) as [[s1 rest]|] eqn:E.
  - destruct (ruleC_hit _ _ _ E) as (ws & Ht & Hws & Hr).
    rewrite Hr.
    rewrite search_B_not_h by discriminate.
    rewrite search_B_not_h by discriminate.
    rewrite (search_B_spaces ws _ Hws).
    apply IH.
    + rewrite Ht. cbn. rewrite length_app. cbn. lia.
    + rewrite Ht in Hs.
      apply (search_none_suffix ruleB_pattern
               (42%N :: 47%N :: ws ++ [42%N; 47%N]) rest).
      cbn [app]. rewrite <- app_assoc. exact Hs.
  - rewrite (ruleC_miss _ _ E). rewrite search_B_cons in *.
    destruct (strip_prefix occ (c :: t)) as [r|] eqn:Hp; [discriminate|].
    destruct (strip_prefix occ (c :: ruleC t)) as [r|] eqn:Hq.
    + exfalso.
      apply (occ_through_ruleC t [c]);
        [cbn [app]; rewrite Hq; discriminate | exact Hp].
    + apply IH; [cbn; lia | assumption].
Qed.

(** X21: after the whole rule table no broken protocol prefix is left:
    Rule B rewrites them all and Rule C, which runs after it, does not
    bring any back. *)
Theorem no_broken_prefix_after_fixes (t : text) :
  matches ruleB_pattern (apply_fixes t) = false.
Proof.
  apply no_match_search. rewrite apply_fixes_eq.
  apply ruleC_keeps_no_occ, ruleB_no_occ.
Qed.

(** * Repeated fix runs *)

Lemma apply_fixes_no_occ (t : text) :
  search ruleB_pattern (apply_fixes t) = None.
Proof. rewrite apply_fixes_eq. apply ruleC_keeps_no_occ, ruleB_no_occ. Qed.

Lemma apply_fixes_length (t : text) : length (apply_fixes t) <= length t.
Proof.
  rewrite apply_fixes_eq.
  pose proof (ruleA_length t) as [HA _].
  pose proof (ruleB_length (ruleA t)) as HB.
  pose proof (ruleC_length (ruleB (ruleA t))) as [HC _]. lia.
Qed.

(** Once no broken prefix is left, a run that changes the text makes it
    shorter. *)
Lemma later_run_shrinks (u : text) :
  search ruleB_pattern u = None ->
  apply_fixes u = u \/ length (apply_fixes u) < length u.
Proof.
  intros HB. rewrite apply_fixes_eq.
  destruct (ruleA_length u) as [_ HA].
  destruct (ruleC_length (ruleB (ruleA u))) as [HC _].
  pose proof (ruleB_length (ruleA u)) as HL.
  destruct (search ruleA_pattern u) as [m|] eqn:EA.
  - right. assert (length (ruleA u) < length u) by (apply HA; discriminate).
    lia.
  - assert (E1 : ruleA u = u) by (unfold ruleA; now apply sub_no_match).
    assert (E2 : ruleB u = u) by (unfold ruleB; now apply sub_no_match).
    rewrite E1, E2. destruct (ruleC_length u) as [_ HC'].
    destruct (search ruleC_pattern u) as [m|] eqn:EC.
    + right. apply HC'. discriminate.
    + left. unfold ruleC. now apply sub_no_match.
Qed.

Lemma fix_runs_settle_from n : forall u : text,
  length u <= n ->
  search ruleB_pattern u = None ->
  exists k, k <= length u /\ apply_fixes (fix_runs k u) = fix_runs k u.
Proof.
  induction n as [|n IH]; intros u Hn HB.
  - exists 0. split; [lia|]. cbn [fix_runs].
    destruct (later_run_shrinks u HB) as [E|Hlt]; [exact E | lia].
  - destruct (later_run_shrinks u HB) as [E|Hlt].
    + exists 0. split; [lia | exact E].
    + destruct (IH (apply_fixes u)) as (k & Hk & E);
        [lia | apply apply_fixes_no_occ |].
      exists (S k). split; [lia | exact E].
Qed.

(** X22: fix runs repeated on a text come to rest: after at most as many
    runs as the text has characters, plus one, a further run changes
    nothing.  From the second run on, a run that changes the text makes
    it shorter. *)
Theorem repeated_fix_runs_settle (t : text) :
  (exists k, k <= S (length t) /\
             apply_fixes (fix_runs k t) = fix_runs k t) /\
  (forall n, apply_fixes (fix_runs (S n) t) = fix_runs (S n) t \/
             length (apply_fixes (fix_runs (S n) t)) <
             length (fix_runs (S n) t)).
Proof.
  split.
  - destruct (fix_runs_settle_from (length (apply_fixes t)) (apply_fixes t))
      as (k & Hk & E); [lia | apply apply_fixes_no_occ |].
    exists (S k). split; [|exact E].
    pose proof (apply_fixes_length t). lia.
  - intros n. apply later_run_shrinks.
    revert t. induction n as [|n IH]; intros t.
    + apply apply_fixes_no_occ.
    + apply (IH (apply_fixes t)).
Qed.
